(** * pydantic_prompter.llm_providers.model: provider formatting core

    A shallow embedding of [src/pydantic_prompter/llm_providers/model.py]
    and the properties of its message normalisation and of the request
    bodies it builds.

    Python objects are mutable and shared: a [Message] put into a list is
    a reference, and [fix_and_merge_messages], [format_messages] and the
    Llama token wrapping all write to the objects they are given. The
    embedding therefore keeps an explicit store of message objects; a
    Python list of messages is a list of references into that store. *)

From Stdlib Require Import Ascii String QArith.
From stdpp Require Import base list strings gmap.

Set Warnings "-register-all".

(** ** Strings *)

(** The newline character, written ["\n"] in the source. *)
Definition nl : string := String "010"%char "".

(** [sep.join(xs)] of Python. *)
Fixpoint join (sep : string) (xs : list string) : string :=
  match xs with
  | [] => ""
  | [x] => x
  | x :: rest => x +:+ sep +:+ join sep rest
  end.

(** The characters [str.strip()] removes, restricted to ASCII: tab, line
    feed, vertical tab, form feed, carriage return, the four separators
    0x1c-0x1f and the space. *)
Definition is_space (c : ascii) : bool :=
  let n := nat_of_ascii c in
  ((9 <=? n) && (n <=? 13)) || ((28 <=? n) && (n <=? 32)).

Fixpoint lstrip (s : string) : string :=
  match s with
  | String c s' => if is_space c then lstrip s' else s
  | EmptyString => ""
  end.

Fixpoint rstrip (s : string) : string :=
  match s with
  | String c s' =>
      match rstrip s' with
      | EmptyString => if is_space c then "" else String c ""
      | t => String c t
      end
  | EmptyString => ""
  end.

Definition strip (s : string) : string := rstrip (lstrip s).

(** ** Messages and the object store *)

(** Modelled from the spec: the class [Message] is imported from
    [pydantic_prompter.common], which is not part of the sources at hand.
    The spec gives it the two fields the code reads and writes, [role]
    and [content]; the code compares [role] with string literals, so the
    role is kept a string. *)
Record Message := mkMessage { role : string; content : string }.

Global Instance Message_eq_dec : EqDecision Message.
Proof. solve_decision. Defined.

Global Instance Message_inhabited : Inhabited Message :=
  populate (mkMessage "" "").

Definition set_role (r : string) (m : Message) : Message :=
  mkMessage r (content m).

Definition set_content (c : string) (m : Message) : Message :=
  mkMessage (role m) c.

(** A reference to a message object, and the store of all message
    objects. Reading is [h !!! r], the assignment [r.f = v] is
    [<[r := ...]> h]; a new object is put at the end of the store. *)
Abbreviation ref := nat.
Abbreviation heap := (list Message).

Definition alloc (h : heap) (m : Message) : heap * ref :=
  (h ++ [m], length h).

(** Every reference of the list names an object of the store. *)
Definition valid (h : heap) (msgs : list ref) : Prop :=
  Forall (λ r, r < length h) msgs.

Global Instance valid_dec h msgs : Decision (valid h msgs).
Proof. unfold valid. apply _. Defined.

(** ** Python values, settings and exceptions *)

(** The values that occur in a settings mapping and in the dictionary a
    formatter hands to [json.dumps]. A float is kept as a rational. *)
Inductive pyval :=
  | PNone
  | PBool (b : bool)
  | PInt (z : Z)
  | PFloat (q : Q)
  | PStr (s : string)
  | PList (l : list pyval)
  | PDict (d : list (string * pyval)).

(** Truth value of an object, as [or] tests it. *)
Definition truthy (v : pyval) : bool :=
  match v with
  | PNone => false
  | PBool b => b
  | PInt z => negb (z =? 0)%Z
  | PFloat q => negb (Qnum q =? 0)%Z
  | PStr s => negb (String.eqb s "")
  | PList l => negb (bool_decide (length l = 0))
  | PDict d => negb (bool_decide (length d = 0))
  end.

(** [a or b]. *)
Definition py_or (a b : pyval) : pyval := if truthy a then a else b.

(** [d.get(k)] on a settings mapping: [None] when the key is absent. *)
Definition get (d : gmap string pyval) (k : string) : pyval :=
  default PNone (d !! k).

(** [d[k]] on a dictionary literal kept in source order. *)
Fixpoint field (k : string) (d : list (string * pyval)) : option pyval :=
  match d with
  | [] => None
  | (k', v) :: rest => if decide (k' = k) then Some v else field k rest
  end.

Definition body_field (k : string) (body : pyval) : option pyval :=
  match body with
  | PDict d => field k d
  | _ => None
  end.

(** [random.uniform(a, b)] is [a + (b - a) * self.random()]; [rnd] is the
    number [random()] returns, which the library draws from [0, 1). *)
Definition uniform (a b rnd : Q) : Q := (a + (b - a) * rnd)%Q.

Definition unit_draw (rnd : Q) : Prop := (0 <= rnd)%Q /\ (rnd < 1)%Q.

(** The exceptions the module can raise: [NotImplementedError] from the
    abstract [bedrock_format], [IndexError] from [list.pop] on an empty
    list, [KeyError] from a dictionary subscript, [TypeError] from the
    libraries [build_prompt] calls. The module defines no exception class
    of its own. *)
Inductive exn :=
  | NotImplementedError
  | IndexError
  | KeyError (k : string)
  | TypeError.


Inductive result (A : Type) :=
  | Ok (a : A)
  | Raise (e : exn).
Arguments Ok {A} a.
Arguments Raise {A} e.

(** ** Templates *)

(** The Jinja2 templates of the source use text, [{{ name }}] and one
    [{% if name == 'lit' %} ... {% else %} ... {% endif %}]. Jinja2 is
    used with its defaults: block tags keep the white space and line
    breaks around them, values are inserted without escaping, and a name
    that was not passed renders as the empty string. *)
Inductive node :=
  | Text (s : string)
  | Var (name : string)
  | IfEq (name lit : string) (yes no : list node).

Definition env := list (string * string).

Fixpoint env_get (e : env) (name : string) : string :=
  match e with
  | [] => ""
  | (k, v) :: rest => if decide (k = name) then v else env_get rest name
  end.

Fixpoint render_node (e : env) (n : node) : string :=
  match n with
  | Text s => s
  | Var x => env_get e x
  | IfEq x lit yes no =>
      if decide (env_get e x = lit)
      then join "" (map (render_node e) yes)
      else join "" (map (render_node e) no)
  end.

(** [Template(t).render(...)] with the keyword arguments [e]. *)
Definition render (t : list node) (e : env) : string :=
  join "" (map (render_node e) t).

(** ** Model instances *)

(** The classes of the module that take part in formatting: the ones
    whose template methods return a template. [GPT], which replaces both
    template methods by [pass], is the constructor [GPTModel] of [model]
    below; [build_prompt] raises on it before it does anything. *)
Inductive provider :=
  | BaseModel
  | Llama2Model
  | CohereCommandModel
  | CohereCommandRModel
  | ClaudeModel.

(** An instance: its class, the two class attributes
    [system_role_supported] and [add_llama_special_tokens] as the instance
    sees them, and what [__init__] stores. *)
Record instance := mkInstance {
  cls : provider;
  system_role_supported : bool;
  add_llama_special_tokens : bool;
  model_name : string;
  model_settings : gmap string pyval
}.

(** The return-type descriptor [params : dict | str] of [build_prompt]. A
    dictionary is kept as the text [json.dumps(params, indent=4)] makes of
    it, the only use the code has for it. This is the descriptor of a
    call that gets past [json.dumps]; a dictionary [json.dumps] rejects
    is in the type [descriptor] below, and [build_prompt_call] raises on
    it before it touches the list. *)
Inductive params :=
  | ParamsDict (dumped : string)
  | ParamsStr (s : string).

Module Model.

(** [Model.__init__]: both class attributes are [True] in [Model] and no
    subclass changes them; [model_settings=None] becomes [{}]. *)
Definition init (c : provider) (name : string)
    (settings : option (gmap string pyval)) : instance :=
  {| cls := c;
     system_role_supported := true;
     add_llama_special_tokens := true;
     model_name := name;
     model_settings := default ∅ settings |}.

Definition bedrock_format (self : instance) (msgs : list ref) (h : heap) :
    result pyval :=
  Raise NotImplementedError.

(** [if not self.system_role_supported and m.role == "system":
    m.role = "user"]. *)
Definition demote (self : instance) (h : heap) (m : ref) : heap :=
  if negb (system_role_supported self)
     && bool_decide (role (h !!! m) = "system")
  then <[m := set_role "user" (h !!! m)]> h
  else h.

(** [l.content += f"\n\n{m.content}"]. *)
Definition merge (h : heap) (l m : ref) : heap :=
  <[l := set_content (content (h !!! l) +:+ nl +:+ nl +:+ content (h !!! m))
                     (h !!! l)]> h.

(** One turn of the loop [for m in msgs] of [fix_and_merge_messages];
    the state is the store and the list [fixed_messages]. *)
Definition fix_step (self : instance) (st : heap * list ref) (m : ref) :
    heap * list ref :=
  let '(h, fixed_messages) := st in
  let h1 := demote self h m in
  match last fixed_messages with
  | Some l =>
      if decide (role (h1 !!! l) = role (h1 !!! m))
      then (merge h1 l m, fixed_messages)
      else (h1, fixed_messages ++ [m])
  | None => (h1, fixed_messages ++ [m])
  end.

Definition fix_and_merge_messages (self : instance) (msgs : list ref)
    (h : heap) : heap * list ref :=
  foldl (fix_step self) (h, []) msgs.

(** [inspect.cleandoc] of the literal in [system_message_jinja2]: the
    common margin of sixteen columns is removed from every line after the
    first, which leaves four or eight columns in front of the deeper
    lines and four on the last, otherwise empty, line. *)
Definition system_message_jinja2 : list node :=
  [ Text "Act like a REST API that performs the requested operation the user asked according to guidelines provided.";
    Text nl;
    IfEq "return_type" "json"
      [ Text (nl +:+ "    Your response should be a valid JSON format, strictly adhering to the Pydantic schema provided in the json_schema section. "
              +:+ nl +:+ "    Respond in a structured JSON format according to the provided schema."
              +:+ nl +:+ nl +:+ "```json_schema" +:+ nl +:+ "    ");
        Var "schema";
        Text (nl +:+ "```" +:+ nl) ]
      [ Text (nl +:+ "        Your response should be a valid ");
        Var "return_type";
        Text (" only" +:+ nl) ];
    Text (nl +:+ "        Stick to the facts and details in the provided data, and follow the guidelines closely."
          +:+ nl +:+ "        DO NOT add any other text other than the ");
    Var "return_type";
    Text (" response" +:+ nl +:+ "    ") ].

(** [inspect.cleandoc] of the literal in [assistant_hint_jinja2]: the
    empty first line goes, and so does the margin of twelve columns. *)
Definition assistant_hint_jinja2 : list node :=
  [ IfEq "return_type" "json"
      [ Text (nl +:+ "    ```"); Var "return_type"; Text nl ]
      [ Text nl ];
    Text (nl +:+ "    ") ].

(** The two texts [build_prompt] renders, [content] and [hint]. *)
Definition scaffold (p : params) : string * string :=
  match p with
  | ParamsDict dumped =>
      (strip (render system_message_jinja2
                [("schema", dumped); ("return_type", "json"%string)]),
       strip (render assistant_hint_jinja2 [("return_type", "json"%string)]))
  | ParamsStr s =>
      (strip (render system_message_jinja2
                [("schema", s); ("return_type", s)]),
       strip (render assistant_hint_jinja2 [("return_type", s)]))
  end.

(** [build_prompt], for a call in which neither the compilation of the
    templates nor [json.dumps] raises ([build_prompt_call] below has the
    calls that raise). The call [self.fix_and_merge_messages] is resolved in
    the class of [self], so the method is taken as the argument [fixer].
    The result holds the store, the caller's list after [insert] and
    [append] have changed it in place, and the list returned. *)
Definition build_prompt (fixer : list ref → heap → heap * list ref)
    (messages : list ref) (p : params) (h : heap) :
    heap * list ref * list ref :=
  let '(content, hint) := scaffold p in
  let '(h1, sys) := alloc h (mkMessage "system" content) in
  let messages1 := sys :: messages in
  let '(h2, asst) := alloc h1 (mkMessage "assistant" hint) in
  let messages2 := messages1 ++ [asst] in
  let '(h3, fixed) := fixer messages2 h2 in
  (h3, messages2, fixed).

End Model.

Module Llama2.

(** [Llama2.__init__] passes the name only, so the settings are empty. *)
Definition init (name : string) : instance :=
  Model.init Llama2Model name None.

(** The body of [for msg in msgs] in [fix_and_merge_messages]. *)
Definition wrap (h : heap) (msg : ref) : heap :=
  let h1 :=
    if decide (role (h !!! msg) = "system")
    then <[msg := set_content
                    ("<<SYS>> " +:+ content (h !!! msg) +:+ " <</SYS>>")
                    (h !!! msg)]> h
    else h in
  if decide (role (h1 !!! msg) = "user")
  then <[msg := set_content
                  ("[INST] " +:+ content (h1 !!! msg) +:+ " [/INST]")
                  (h1 !!! msg)]> h1
  else h1.

Definition fix_and_merge_messages (self : instance) (msgs : list ref)
    (h : heap) : heap * list ref :=
  let '(h1, msgs1) := Model.fix_and_merge_messages self msgs h in
  if add_llama_special_tokens self
  then (foldl wrap h1 msgs1, msgs1)
  else (h1, msgs1).

(** The dictionary given to [json.dumps]. *)
Definition bedrock_format (self : instance) (msgs : list ref) (h : heap)
    (rnd : Q) : pyval :=
  let final_messages := join nl (map (λ m, content (h !!! m)) msgs) in
  PDict
    [ ("max_gen_len"%string,
        py_or (get (model_settings self) "max_gen_len") (PInt 2048));
      ("prompt"%string, PStr final_messages);
      ("temperature"%string,
        py_or (get (model_settings self) "temperature")
              (PFloat (uniform 0 1 rnd))) ].

End Llama2.

(** An element of the list [format_messages] returns, the dictionary
    [{"role": ..., "message": ...}]. *)
Record chat_entry := mkEntry { entry_role : string; entry_message : string }.

Module CohereCommand.

Definition role_converter : gmap string string :=
  {[ "user"%string := "USER"%string;
     "system"%string := "USER"%string;
     "assistant"%string := "CHATBOT"%string ]}.

(** [if msg.role == "system":
    msg.content = f"## Instructions\n{msg.content}"]. *)
Definition instruct (h : heap) (msg : ref) : heap :=
  if decide (role (h !!! msg) = "system")
  then <[msg := set_content ("## Instructions" +:+ nl +:+ content (h !!! msg))
                            (h !!! msg)]> h
  else h.

(** The loop of [format_messages] over the messages still to come,
    [output] holding the entries made so far. The subscript
    [role_converter[msg.role]] raises [KeyError] for a role that is not in
    the table; the store keeps what the earlier turns wrote. *)
Fixpoint format_loop (msgs : list ref) (h : heap) (output : list chat_entry) :
    heap * result (list chat_entry) :=
  match msgs with
  | [] => (h, Ok output)
  | msg :: rest =>
      let h1 := instruct h msg in
      match role_converter !! role (h1 !!! msg) with
      | Some r =>
          format_loop rest h1 (output ++ [mkEntry r (content (h1 !!! msg))])
      | None => (h1, Raise (KeyError (role (h1 !!! msg))))
      end
  end.

Definition format_messages (msgs : list ref) (h : heap) :
    heap * result (list chat_entry) :=
  format_loop msgs h [].

Definition prompt_of (content : list chat_entry) : string :=
  join nl (map (λ c, entry_role c +:+ ": " +:+ entry_message c) content).

Definition bedrock_format (self : instance) (msgs : list ref) (h : heap)
    (rnd : Q) : heap * result pyval :=
  match format_messages msgs h with
  | (h1, Raise e) => (h1, Raise e)
  | (h1, Ok content) =>
      (h1,
       Ok (PDict
         [ ("prompt"%string, PStr (prompt_of content));
           ("stop_sequences"%string,
             py_or (get (model_settings self) "stop_sequences")
                   (PList [PStr "User:"]));
           ("temperature"%string,
             py_or (get (model_settings self) "temperature")
                   (PFloat (uniform 0 1 rnd))) ]))
  end.

End CohereCommand.

Module CohereCommandR.

Definition bedrock_format (self : instance) (msgs : list ref) (h : heap)
    (rnd : Q) : heap * result pyval :=
  match CohereCommand.format_messages msgs h with
  | (h1, Raise e) => (h1, Raise e)
  | (h1, Ok content) =>
      (h1,
       Ok (PDict
         [ ("message"%string, PStr (CohereCommand.prompt_of content));
           ("max_tokens"%string, PInt 20000);
           ("stop_sequences"%string,
             py_or (get (model_settings self) "stop_sequences")
                   (PList [PStr "User:"]));
           ("temperature"%string,
             py_or (get (model_settings self) "temperature")
                   (PFloat (uniform 0 1 rnd))) ]))
  end.

End CohereCommandR.

Module Claude.

(** [m.dict()] of a message. *)
Definition dict (m : Message) : pyval :=
  PDict [ ("role"%string, PStr (role m)); ("content"%string, PStr (content m)) ].

(** [msgs.pop(0)] raises [IndexError] on the empty list and otherwise
    takes the first element out of the caller's list; the list is
    returned as the call leaves it. *)
Definition bedrock_format (self : instance) (msgs : list ref) (h : heap)
    (rnd : Q) : list ref * result pyval :=
  match msgs with
  | [] => ([], Raise IndexError)
  | system_message :: msgs1 =>
      let final_messages := map (λ m, dict (h !!! m)) msgs1 in
      (msgs1,
       Ok (PDict
         [ ("system"%string, PStr (content (h !!! system_message)));
           ("max_tokens"%string,
             py_or (get (model_settings self) "max_tokens") (PInt 8000));
           ("messages"%string, PList final_messages);
           ("temperature"%string,
             py_or (get (model_settings self) "temperature")
                   (PFloat (uniform 0 1 rnd)));
           ("anthropic_version"%string,
             py_or (get (model_settings self) "anthropic_version")
                   (PStr "bedrock-2023-05-31")) ]))
  end.

End Claude.

(** ** Method resolution *)

(** [self.fix_and_merge_messages]: only [Llama2] overrides it. *)
Definition fix_and_merge_messages (self : instance) :
    list ref → heap → heap * list ref :=
  match cls self with
  | Llama2Model => Llama2.fix_and_merge_messages self
  | _ => Model.fix_and_merge_messages self
  end.

(** [self.build_prompt]: inherited from [Model] by every class. *)
Definition build_prompt (self : instance) :
    list ref → params → heap → heap * list ref * list ref :=
  Model.build_prompt (fix_and_merge_messages self).

(** [self.bedrock_format]: the store and the list [msgs] as the call
    leaves them, and the dictionary serialised or the exception raised. *)
Definition bedrock_format (self : instance) (msgs : list ref) (h : heap)
    (rnd : Q) : heap * list ref * result pyval :=
  match cls self with
  | BaseModel => (h, msgs, Model.bedrock_format self msgs h)
  | Llama2Model => (h, msgs, Ok (Llama2.bedrock_format self msgs h rnd))
  | CohereCommandModel =>
      let '(h1, r) := CohereCommand.bedrock_format self msgs h rnd in
      (h1, msgs, r)
  | CohereCommandRModel =>
      let '(h1, r) := CohereCommandR.bedrock_format self msgs h rnd in
      (h1, msgs, r)
  | ClaudeModel =>
      let '(msgs1, r) := Claude.bedrock_format self msgs h rnd in
      (h, msgs1, r)
  end.

(** The messages a list of references stands for. *)
Definition view (h : heap) (msgs : list ref) : list Message :=
  map (λ r, h !!! r) msgs.

(** ** Predicates on message lists *)

(** Adjacent references of [l] name messages of different roles. *)
Definition alternates (h : heap) (l : list ref) : Prop :=
  ∀ i a b, l !! i = Some a → l !! S i = Some b →
    role (h !!! a) ≠ role (h !!! b).

(** When the instance does not support the system role, no message of
    [l] has it. *)
Definition no_system (self : instance) (h : heap) (l : list ref) : Prop :=
  system_role_supported self = false →
  ∀ r, r ∈ l → role (h !!! r) ≠ "system"%string.

(** ** The normaliser as the spec words it

    Section 4.2 of the spec describes [normalize(messages,
    system_role_supported)] on message values, without a store: rewrite
    the role of a system message when the role is not supported, then
    "compare to the last message already accepted into the output: if same
    role, concatenate content (with a blank-line separator) into that
    accepted message; otherwise append as new accepted message". The
    definitions below follow these words; [spec_normalize_from] carries
    the last accepted message [cur] and emits it once the next message
    has another role. *)

Definition spec_rewrite (supported : bool) (m : Message) : Message :=
  if negb supported && bool_decide (role m = "system")
  then set_role "user" m
  else m.

Definition spec_concat (a b : Message) : Message :=
  set_content (content a +:+ nl +:+ nl +:+ content b) a.

Fixpoint spec_normalize_from (supported : bool) (cur : Message)
    (rest : list Message) : list Message :=
  match rest with
  | [] => [cur]
  | m :: rest' =>
      let m' := spec_rewrite supported m in
      if decide (role cur = role m')
      then spec_normalize_from supported (spec_concat cur m') rest'
      else cur :: spec_normalize_from supported m' rest'
  end.

Definition spec_normalize (supported : bool) (messages : list Message) :
    list Message :=
  match messages with
  | [] => []
  | m :: rest => spec_normalize_from supported (spec_rewrite supported m) rest
  end.

(** ** The rendered scaffold in closed form *)

Definition instructions_head : string :=
  "Act like a REST API that performs the requested operation the user asked according to guidelines provided."
  +:+ nl +:+ nl.

Definition instructions_tail (return_type : string) : string :=
  nl
  +:+ "        Stick to the facts and details in the provided data, and follow the guidelines closely."
  +:+ nl
  +:+ "        DO NOT add any other text other than the "
  +:+ return_type +:+ " response".

Definition schema_head : string :=
  instructions_head
  +:+ "    Your response should be a valid JSON format, strictly adhering to the Pydantic schema provided in the json_schema section. "
  +:+ nl
  +:+ "    Respond in a structured JSON format according to the provided schema."
  +:+ nl +:+ nl +:+ "```json_schema" +:+ nl +:+ "    ".

Definition schema_tail : string :=
  nl +:+ "```" +:+ nl +:+ instructions_tail "json".

(** What the system template renders to for a dictionary, [dumped] being
    its serialisation. *)
Definition schema_instructions (dumped : string) : string :=
  schema_head +:+ dumped +:+ schema_tail.

(** What it renders to for a type name other than "json". *)
Definition plain_instructions (s : string) : string :=
  instructions_head +:+ "        Your response should be a valid "
  +:+ s +:+ " only" +:+ nl +:+ instructions_tail s.

(** The role table of [CohereCommand.format_messages] as a function. *)
Definition known_role (r : string) : Prop :=
  r = "user"%string ∨ r = "system"%string ∨ r = "assistant"%string.

Global Instance known_role_dec r : Decision (known_role r).
Proof. unfold known_role. apply _. Defined.

Definition instructions_prefix : string := "## Instructions" +:+ nl.

(** A content with the instructions prefix put in front [n] times. *)
Fixpoint instructed (n : nat) (c : string) : string :=
  match n with
  | 0 => c
  | S n' => instructions_prefix +:+ instructed n' c
  end.

(** The entry [format_messages] makes of a message whose content has
    been through [n - 1] earlier calls: the converted role, and the
    content, prefixed [n] times if it is a system message. *)
Definition cohere_entry (n : nat) (m : Message) : chat_entry :=
  mkEntry (default ""%string (CohereCommand.role_converter !! role m))
          (if decide (role m = "system"%string)
           then instructed n (content m)
           else content m).

(** The message a system message has become after [n] calls. *)
Definition cohere_written (n : nat) (m : Message) : Message :=
  if decide (role m = "system"%string)
  then set_content (instructed n (content m)) m
  else m.

(** ** Sample instances and stores *)

Definition base_model : instance := Model.init BaseModel "base" None.

(** An instance whose [system_role_supported] has been set to [False]. *)
Definition demoting_model : instance :=
  {| cls := BaseModel;
     system_role_supported := false;
     add_llama_special_tokens := true;
     model_name := "demoting";
     model_settings := ∅ |}.

(** A Claude instance configured with the temperature 0. *)
Definition claude_zero : instance :=
  Model.init ClaudeModel "claude" (Some {[ "temperature"%string := PInt 0 ]}).

Definition sample_heap : heap :=
  [ mkMessage "system" "A"; mkMessage "user" "B";
    mkMessage "user" "C"; mkMessage "assistant" "D" ].

(** ** Further vocabulary for the properties *)

(** How far a role can move in a pass: it stays, or an unsupported
    "system" has become "user". *)
Definition role_moved (self : instance) (before after : string) : Prop :=
  after = before
  ∨ (system_role_supported self = false
     ∧ before = "system"%string ∧ after = "user"%string).

(** The blank line [fix_and_merge_messages] puts between merged contents. *)
Definition blank_line : string := nl +:+ nl.

(** What the loop of [Llama2.fix_and_merge_messages] makes of a message
    value: a system content between the SYS tokens, a user content
    between the INST tokens, every other message as it is. *)
Definition llama_tokens (m : Message) : Message :=
  if decide (role m = "system"%string)
  then set_content ("<<SYS>> " +:+ content m +:+ " <</SYS>>") m
  else if decide (role m = "user"%string)
       then set_content ("[INST] " +:+ content m +:+ " [/INST]") m
       else m.

(** The keys of the settings mapping the formatters read. *)
Definition recognised_keys : list string :=
  [ "max_gen_len"; "max_tokens"; "temperature"; "stop_sequences";
    "anthropic_version" ]%string.

(** The right operands of [or] in the dictionaries of the formatters,
    by class and key (the temperature, whose default is drawn, apart). *)
Definition class_default (c : provider) (k : string) : option pyval :=
  match c with
  | BaseModel => None
  | Llama2Model =>
      if decide (k = "max_gen_len"%string) then Some (PInt 2048) else None
  | CohereCommandModel | CohereCommandRModel =>
      if decide (k = "stop_sequences"%string)
      then Some (PList [PStr "User:"]) else None
  | ClaudeModel =>
      if decide (k = "max_tokens"%string) then Some (PInt 8000)
      else if decide (k = "anthropic_version"%string)
           then Some (PStr "bedrock-2023-05-31") else None
  end.

(** A Claude instance configured with a temperature that counts as true. *)
Definition claude_warm : instance :=
  Model.init ClaudeModel "claude"
    (Some {[ "temperature"%string := PFloat (7 # 10) ]}).

Definition claude_model : instance := Model.init ClaudeModel "claude" None.

Definition cohere_model : instance :=
  Model.init CohereCommandModel "cohere" None.

(** A store with a message of a role outside the table of
    [format_messages]. *)
Definition odd_heap : heap :=
  [ mkMessage "system" "A"; mkMessage "tool" "T"; mkMessage "system" "S" ].

(** The dictionary of a result, [None] standing for a raised exception. *)
Definition body_of (r : result pyval) : pyval :=
  match r with
  | Ok body => body
  | Raise _ => PNone
  end.

(** The roles [format_messages] gives to its entries. *)
Definition cohere_role (r : string) : Prop :=
  r = "USER"%string ∨ r = "CHATBOT"%string.

(** Two instances of one class whose settings differ in a key no
    formatter reads. *)
Definition claude_top_p : instance :=
  Model.init ClaudeModel "claude" (Some {[ "top_p"%string := PFloat (1 # 2) ]}).

(** The store and the caller's list as [build_prompt] has them when it
    calls [fix_and_merge_messages]: the two new messages at the end of
    the store, their references at the two ends of the list. *)
Definition scaffold_store (h : heap) (p : params) : heap :=
  (h ++ [mkMessage "system" (Model.scaffold p).1])
  ++ [mkMessage "assistant" (Model.scaffold p).2].

Definition scaffold_list (h : heap) (messages : list ref) : list ref :=
  (length h :: messages) ++ [S (length h)].

(** ** Calls of [build_prompt] that raise *)









(** The line of the Cohere prompt for a message whose content has been
    through [n - 1] earlier calls of [format_messages]: CHATBOT for an
    assistant message and USER for the others, a colon, and the content,
    with the instructions prefix [n] times in front of it if the message
    is a system message. *)
Definition cohere_line (n : nat) (m : Message) : string :=
  (if decide (role m = "assistant"%string) then "CHATBOT" else "USER")
  +:+ ": "
  +:+ (if decide (role m = "system"%string)
       then instructed n (content m)
       else content m).

(** * Properties *)

(** ** The store *)

Lemma lookup_total_insert_other (h : heap) (i j : ref) (x : Message) :
  i ≠ j → <[i := x]> h !!! j = h !!! j.
Proof. intros. by apply list_lookup_total_insert_ne. Qed.

Lemma role_insert_set_content (h : heap) (i j : ref) (c : string) :
  role (<[i := set_content c (h !!! i)]> h !!! j) = role (h !!! j).
Proof.
  destruct (decide (i = j)) as [->|Hne].
  - destruct (decide (j < length h)) as [Hlt|Hge].
    + by rewrite list_lookup_total_insert_eq.
    + by rewrite list_insert_ge by lia.
  - by rewrite lookup_total_insert_other.
Qed.

Lemma content_insert_set_role (h : heap) (i j : ref) (r : string) :
  content (<[i := set_role r (h !!! i)]> h !!! j) = content (h !!! j).
Proof.
  destruct (decide (i = j)) as [->|Hne].
  - destruct (decide (j < length h)) as [Hlt|Hge].
    + by rewrite list_lookup_total_insert_eq.
    + by rewrite list_insert_ge by lia.
  - by rewrite lookup_total_insert_other.
Qed.

(** A reference outside the store reads as the empty message, whose role
    is no role of the code. *)
Lemma role_system_in_store (h : heap) (r : ref) :
  role (h !!! r) = "system"%string → r < length h.
Proof.
  intros Hr. destruct (decide (r < length h)) as [|Hge]; [done|].
  rewrite list_lookup_total_alt, lookup_ge_None_2 in Hr by lia. done.
Qed.

(** ** [Model.demote] and [Model.merge] *)

Lemma demote_other self h m r : r ≠ m → Model.demote self h m !!! r = h !!! r.
Proof.
  intros Hne. unfold Model.demote.
  destruct (_ && _); [|done]. by rewrite lookup_total_insert_other.
Qed.

Lemma demote_content self h m r :
  content (Model.demote self h m !!! r) = content (h !!! r).
Proof.
  unfold Model.demote. destruct (_ && _); [|done].
  apply content_insert_set_role.
Qed.

Lemma demote_length self h m : length (Model.demote self h m) = length h.
Proof. unfold Model.demote. destruct (_ && _); [|done]. apply length_insert. Qed.

(** With the system role supported nothing is written. *)
Lemma demote_supported self h m :
  system_role_supported self = true → Model.demote self h m = h.
Proof. intros Hs. unfold Model.demote. by rewrite Hs. Qed.

(** A message that is not a system message is left alone. *)
Lemma demote_not_system self h m :
  role (h !!! m) ≠ "system"%string → Model.demote self h m = h.
Proof.
  intros Hr. unfold Model.demote.
  rewrite bool_decide_eq_false_2 by done. by rewrite andb_false_r.
Qed.

(** After the rewrite no system message is left at [m] when the role is
    not supported. *)
Lemma demote_self_not_system self h m :
  system_role_supported self = false →
  role (Model.demote self h m !!! m) ≠ "system"%string.
Proof.
  intros Hs. unfold Model.demote. rewrite Hs. simpl.
  case_bool_decide as Hr; [|done].
  rewrite list_lookup_total_insert_eq by by apply role_system_in_store.
  done.
Qed.

Lemma merge_role h l m r : role (Model.merge h l m !!! r) = role (h !!! r).
Proof. apply role_insert_set_content. Qed.

Lemma merge_other h l m r : r ≠ l → Model.merge h l m !!! r = h !!! r.
Proof. intros. by apply lookup_total_insert_other. Qed.

Lemma merge_length h l m : length (Model.merge h l m) = length h.
Proof. apply length_insert. Qed.

(** ** Role alternation *)

Lemma alternates_nil h : alternates h [].
Proof. intros i a b Ha. by rewrite lookup_nil in Ha. Qed.

Lemma alternates_ext h h' l :
  (∀ r, r ∈ l → role (h' !!! r) = role (h !!! r)) →
  alternates h l → alternates h' l.
Proof.
  intros Heq Halt i a b Ha Hb.
  rewrite !Heq by (eapply list_elem_of_lookup_2; eauto). eauto.
Qed.

Lemma alternates_snoc h l m :
  alternates h l →
  (∀ x, last l = Some x → role (h !!! x) ≠ role (h !!! m)) →
  alternates h (l ++ [m]).
Proof.
  intros Halt Hlast i a b Ha Hb.
  destruct (decide (S i < length l)) as [Hlt|Hge].
  - rewrite lookup_app_l in Ha by lia. rewrite lookup_app_l in Hb by lia. eauto.
  - pose proof (lookup_lt_Some _ _ _ Hb) as Hlen.
    rewrite length_app in Hlen. simpl in Hlen.
    assert (S i = length l) as Hi by lia.
    rewrite lookup_app_l in Ha by lia.
    rewrite lookup_app_r in Hb by lia.
    replace (S i - length l) with 0 in Hb by lia.
    injection Hb as <-.
    apply Hlast. rewrite last_lookup, <- Hi. done.
Qed.

Lemma alternates_last h l m x :
  alternates h (l ++ [m]) → last l = Some x → role (h !!! x) ≠ role (h !!! m).
Proof.
  intros Halt Hx. rewrite last_lookup in Hx.
  pose proof (lookup_lt_Some _ _ _ Hx) as Hlt.
  apply (Halt (pred (length l))).
  - by rewrite lookup_app_l by lia.
  - rewrite lookup_app_r by lia.
    by replace (S (pred (length l)) - length l) with 0 by lia.
Qed.

Lemma alternates_app_l h l k : alternates h (l ++ k) → alternates h l.
Proof.
  intros Halt i a b Ha Hb. apply (Halt i).
  - by apply lookup_app_l_Some.
  - by apply lookup_app_l_Some.
Qed.

(** The role rewrite leaves the accepted messages as they are: with the
    system role supported it writes nothing, and without it no accepted
    message is a system message any more. *)
Lemma demote_accepted self h fixed m r :
  no_system self h fixed → r ∈ fixed → Model.demote self h m !!! r = h !!! r.
Proof.
  intros Hns Hr. destruct (system_role_supported self) eqn:Hs.
  - by rewrite demote_supported.
  - destruct (decide (r = m)) as [->|Hne].
    + by rewrite demote_not_system by by apply Hns.
    + by apply demote_other.
Qed.

(** One turn of the loop keeps both properties of the accepted list. *)
Lemma fix_step_invariant self h fixed m :
  alternates h fixed → no_system self h fixed →
  alternates (Model.fix_step self (h, fixed) m).1
             (Model.fix_step self (h, fixed) m).2
  ∧ no_system self (Model.fix_step self (h, fixed) m).1
                   (Model.fix_step self (h, fixed) m).2.
Proof.
  intros Halt Hns. unfold Model.fix_step.
  set (h1 := Model.demote self h m).
  assert (Hkeep : ∀ r, r ∈ fixed → h1 !!! r = h !!! r)
    by (intros r Hr; by eapply demote_accepted).
  assert (Halt1 : alternates h1 fixed).
  { eapply alternates_ext; [|exact Halt]. intros r Hr. by rewrite Hkeep. }
  assert (Hns1 : no_system self h1 fixed).
  { intros Hs r Hr. rewrite Hkeep by done. by apply Hns. }
  assert (Hns_m : no_system self h1 (fixed ++ [m])).
  { intros Hs r Hr. apply elem_of_app in Hr as [Hr|Hr]; [by apply Hns1|].
    apply list_elem_of_singleton in Hr as ->. by apply demote_self_not_system. }
  destruct (last fixed) as [l|] eqn:Hl; simpl.
  - case_decide as Hrole; simpl.
    + split.
      * eapply alternates_ext; [|exact Halt1]. intros r _. apply merge_role.
      * intros Hs r Hr. rewrite merge_role. by apply Hns1.
    + split; [|done]. apply alternates_snoc; [done|].
      intros x Hx. congruence.
  - split; [|done]. apply alternates_snoc; [done|]. intros x Hx. congruence.
Qed.

Lemma fix_loop_invariant self msgs h fixed :
  alternates h fixed → no_system self h fixed →
  alternates (foldl (Model.fix_step self) (h, fixed) msgs).1
             (foldl (Model.fix_step self) (h, fixed) msgs).2
  ∧ no_system self (foldl (Model.fix_step self) (h, fixed) msgs).1
                   (foldl (Model.fix_step self) (h, fixed) msgs).2.
Proof.
  revert h fixed. induction msgs as [|m msgs IH]; intros h fixed Halt Hns.
  - done.
  - cbn [foldl]. destruct (fix_step_invariant self h fixed m Halt Hns) as [H1 H2].
    destruct (Model.fix_step self (h, fixed) m) as [h' fixed']. by apply IH.
Qed.

Lemma fix_loop_alternates self msgs h :
  alternates (Model.fix_and_merge_messages self msgs h).1
             (Model.fix_and_merge_messages self msgs h).2.
Proof.
  destruct (fix_loop_invariant self msgs h []) as [Halt _].
  - apply alternates_nil.
  - intros _ r Hr. by apply elem_of_nil in Hr.
  - done.
Qed.

(** C1. For every message list, every store and every instance (so for
    both values of [system_role_supported]), no two adjacent messages of
    the list [fix_and_merge_messages] returns have the same role: at each
    position [i], the roles of [out[i]] and [out[i+1]] differ. *)
Theorem fix_and_merge_messages_alternates
    (self : instance) (msgs : list ref) (h : heap) (i : nat) (a b : ref) :
  (Model.fix_and_merge_messages self msgs h).2 !! i = Some a →
  (Model.fix_and_merge_messages self msgs h).2 !! S i = Some b →
  role ((Model.fix_and_merge_messages self msgs h).1 !!! a)
  ≠ role ((Model.fix_and_merge_messages self msgs h).1 !!! b).
Proof.
  intros Ha Hb.
  exact (fix_loop_alternates self msgs h i a b Ha Hb).
Qed.

Lemma fix_and_merge_messages_alternates_witness :
  role ((Model.fix_and_merge_messages demoting_model [0; 1; 2; 3] sample_heap).1 !!! 0)
  ≠ role ((Model.fix_and_merge_messages demoting_model [0; 1; 2; 3] sample_heap).1 !!! 3).
Proof.
  apply (fix_and_merge_messages_alternates demoting_model [0; 1; 2; 3]
           sample_heap 0 0 3); reflexivity.
Defined.

(** ** Idempotence *)

(** A list that already alternates, and holds no system message when the
    role is not supported, is returned as it is, and nothing is written. *)
Lemma fix_loop_fixed_point self l h pre :
  alternates h (pre ++ l) → no_system self h (pre ++ l) →
  foldl (Model.fix_step self) (h, pre) l = (h, pre ++ l).
Proof.
  revert pre. induction l as [|m l IH]; intros pre Halt Hns.
  - by rewrite app_nil_r.
  - cbn [foldl].
    assert (Hstep : Model.fix_step self (h, pre) m = (h, pre ++ [m])).
    { unfold Model.fix_step.
      assert (Model.demote self h m = h) as ->.
      { destruct (system_role_supported self) eqn:Hs.
        - by apply demote_supported.
        - apply demote_not_system, Hns; [done|]. set_solver. }
      destruct (last pre) as [x|] eqn:Hx; [|done].
      rewrite decide_False; [done|].
      eapply alternates_last; [|exact Hx].
      apply (alternates_app_l _ _ l). by rewrite <- app_assoc. }
    rewrite Hstep, (cons_middle m pre l), app_assoc.
    apply IH; by rewrite <- app_assoc.
Qed.

(** C7. With [system_role_supported] false, normalising the list that
    normalisation returned gives that list again and leaves every message
    as the first run left it: running it twice is running it once. *)
Theorem fix_and_merge_messages_idempotent
    (self : instance) (msgs : list ref) (h : heap) :
  system_role_supported self = false →
  Model.fix_and_merge_messages self
    (Model.fix_and_merge_messages self msgs h).2
    (Model.fix_and_merge_messages self msgs h).1
  = Model.fix_and_merge_messages self msgs h.
Proof.
  intros _.
  destruct (fix_loop_invariant self msgs h []) as [Halt Hns].
  - apply alternates_nil.
  - intros _ r Hr. by apply elem_of_nil in Hr.
  - unfold Model.fix_and_merge_messages in *.
    destruct (foldl (Model.fix_step self) (h, []) msgs) as [h' out].
    by rewrite fix_loop_fixed_point.
Qed.

Lemma fix_and_merge_messages_idempotent_witness :
  Model.fix_and_merge_messages demoting_model
    (Model.fix_and_merge_messages demoting_model [0; 1; 2; 3] sample_heap).2
    (Model.fix_and_merge_messages demoting_model [0; 1; 2; 3] sample_heap).1
  = Model.fix_and_merge_messages demoting_model [0; 1; 2; 3] sample_heap.
Proof.
  apply (fix_and_merge_messages_idempotent demoting_model [0; 1; 2; 3]
           sample_heap).
  reflexivity.
Defined.

(** ** The pass against the spec's description *)

Lemma view_ext h h' l :
  (∀ r, r ∈ l → h' !!! r = h !!! r) → view h' l = view h l.
Proof.
  intros Heq. unfold view. apply map_ext_in.
  intros r Hr. apply Heq. by apply list_elem_of_In.
Qed.

Lemma view_app h l k : view h (l ++ k) = view h l ++ view h k.
Proof. unfold view. apply map_app. Qed.

Lemma demote_self self h m :
  m < length h →
  Model.demote self h m !!! m
  = spec_rewrite (system_role_supported self) (h !!! m).
Proof.
  intros Hm. unfold Model.demote, spec_rewrite.
  destruct (_ && _); [|done]. by rewrite list_lookup_total_insert_eq.
Qed.

Lemma merge_self h l m :
  l < length h → Model.merge h l m !!! l = spec_concat (h !!! l) (h !!! m).
Proof. intros Hl. unfold Model.merge. by rewrite list_lookup_total_insert_eq. Qed.

Lemma fix_step_snoc self h pre l m :
  Model.fix_step self (h, pre ++ [l]) m
  = if decide (role (Model.demote self h m !!! l)
               = role (Model.demote self h m !!! m))
    then (Model.merge (Model.demote self h m) l m, pre ++ [l])
    else (Model.demote self h m, (pre ++ [l]) ++ [m]).
Proof. unfold Model.fix_step. by rewrite last_snoc. Qed.

Lemma valid_length h h' l : length h' = length h → valid h l → valid h' l.
Proof. unfold valid. intros ->. done. Qed.

(** The loop from a state whose last accepted message is [l], on
    messages that are distinct objects, against the recursion of the
    spec's description started at the value of [l]. *)
Lemma fix_loop_refines self rest hc pre l :
  NoDup (pre ++ l :: rest) → valid hc (pre ++ l :: rest) →
  view (foldl (Model.fix_step self) (hc, pre ++ [l]) rest).1
       (foldl (Model.fix_step self) (hc, pre ++ [l]) rest).2
  = view hc pre
    ++ spec_normalize_from (system_role_supported self) (hc !!! l)
         (view hc rest).
Proof.
  revert hc pre l. induction rest as [|m rest IH]; intros hc pre l Hnd Hv.
  - simpl. by rewrite view_app.
  - cbn [foldl]. rewrite fix_step_snoc.
    apply NoDup_app in Hnd as (Hpre & Hdisj & Hnd).
    apply NoDup_cons in Hnd as (Hl & Hnd).
    apply NoDup_cons in Hnd as (Hm & Hrest).
    apply not_elem_of_cons in Hl as (Hlm & Hl).
    assert (Hpl : l ∉ pre) by (intros Hin; apply (Hdisj _ Hin); set_solver).
    assert (Hpm : m ∉ pre) by (intros Hin; apply (Hdisj _ Hin); set_solver).
    apply Forall_app in Hv as (Hvpre & Hv).
    apply Forall_cons in Hv as (Hvl & Hv).
    apply Forall_cons in Hv as (Hvm & Hvrest).
    set (h1 := Model.demote self hc m).
    assert (Hh1l : h1 !!! l = hc !!! l) by by apply demote_other.
    assert (Hh1m : h1 !!! m
                   = spec_rewrite (system_role_supported self) (hc !!! m))
      by by apply demote_self.
    assert (Hlen1 : length h1 = length hc) by apply demote_length.
    cbn [view map spec_normalize_from]. fold (view hc rest).
    rewrite Hh1l, Hh1m.
    destruct (decide (role (hc !!! l) = role (spec_rewrite _ (hc !!! m))))
      as [Heq|Hne].
    + rewrite IH.
      * rewrite (view_ext hc _ pre), (view_ext hc _ rest).
        -- rewrite merge_self by lia. by rewrite Hh1l, Hh1m.
        -- intros r Hr. rewrite merge_other by set_solver.
           apply demote_other. set_solver.
        -- intros r Hr. rewrite merge_other by set_solver.
           apply demote_other. set_solver.
      * apply NoDup_app. split_and!; [done| |by apply NoDup_cons].
        intros x Hx Hin. apply (Hdisj x Hx).
        apply elem_of_cons in Hin as [->|Hin]; [constructor|by do 2 constructor].
      * apply (valid_length hc); [by rewrite merge_length, Hlen1|].
        apply Forall_app. split; [done|]. by apply Forall_cons.
    + rewrite IH.
      * rewrite Hh1m, (view_ext hc _ (pre ++ [l])), (view_ext hc _ rest).
        -- rewrite view_app, <- app_assoc. done.
        -- intros r Hr. apply demote_other. set_solver.
        -- intros r Hr. apply demote_other.
           intros ->. apply elem_of_app in Hr as [Hr|Hr]; [done|].
           apply list_elem_of_singleton in Hr. done.
      * rewrite <- app_assoc. simpl.
        apply NoDup_app. split_and!; [done| |].
        -- intros x Hx Hin. apply (Hdisj x Hx). done.
        -- apply NoDup_cons. split; [by apply not_elem_of_cons|].
           by apply NoDup_cons.
      * apply (valid_length hc); [exact Hlen1|].
        rewrite <- app_assoc. simpl.
        apply Forall_app. split; [done|].
        apply Forall_cons. split; [done|]. by apply Forall_cons.
Qed.

Lemma fix_step_list self h fixed m :
  (Model.fix_step self (h, fixed) m).2 = fixed
  ∨ (Model.fix_step self (h, fixed) m).2 = fixed ++ [m].
Proof.
  unfold Model.fix_step. destruct (last fixed); [|by right].
  case_decide; [by left|by right].
Qed.

(** The accepted list is the list it was, followed by a selection, in
    their order, of the messages the loop has walked over. *)
Lemma fix_loop_sublist self rest h fixed :
  (foldl (Model.fix_step self) (h, fixed) rest).2 `sublist_of` fixed ++ rest.
Proof.
  revert h fixed. induction rest as [|m rest IH]; intros h fixed.
  - simpl. by rewrite app_nil_r.
  - cbn [foldl].
    destruct (fix_step_list self h fixed m) as [Hl|Hl];
      destruct (Model.fix_step self (h, fixed) m) as [h' fixed'];
      simpl in Hl; subst fixed'.
    + etrans; [apply IH|]. apply sublist_app; [done|]. by apply sublist_cons.
    + etrans; [apply IH|]. by rewrite <- app_assoc.
Qed.

(** C3. [fix_and_merge_messages] is one pass from left to right: the
    result for a list extended by a message is the result for the list
    followed by one turn for that message; the list returned is a
    selection of the input in the input's order, so it is never longer;
    and, on distinct message objects of the store, the messages returned
    are those of the spec's description: a system role rewritten to user
    when the role is not supported, a message of the role of the last
    accepted one concatenated into it behind an empty line and dropped,
    any other message appended. *)
Theorem fix_and_merge_messages_single_pass
    (self : instance) (msgs : list ref) (h : heap) :
  (∀ m, Model.fix_and_merge_messages self (msgs ++ [m]) h
        = Model.fix_step self (Model.fix_and_merge_messages self msgs h) m)
  ∧ length (Model.fix_and_merge_messages self msgs h).2 ≤ length msgs
  ∧ (Model.fix_and_merge_messages self msgs h).2 `sublist_of` msgs
  ∧ (valid h msgs → NoDup msgs →
     view (Model.fix_and_merge_messages self msgs h).1
          (Model.fix_and_merge_messages self msgs h).2
     = spec_normalize (system_role_supported self) (view h msgs)).
Proof.
  assert (Hsub : (Model.fix_and_merge_messages self msgs h).2 `sublist_of` msgs)
    by apply (fix_loop_sublist self msgs h []).
  split_and!.
  - intros m. unfold Model.fix_and_merge_messages. apply foldl_snoc.
  - by apply sublist_length.
  - done.
  - intros Hv Hnd. unfold Model.fix_and_merge_messages.
    destruct msgs as [|m rest]; [done|].
    cbn [foldl]. change (Model.fix_step self (h, []) m)
      with (Model.demote self h m, [] ++ [m]).
    apply NoDup_cons in Hnd as (Hm & Hrest).
    apply Forall_cons in Hv as (Hvm & Hvrest).
    rewrite fix_loop_refines.
    + simpl. rewrite demote_self by done.
      rewrite (view_ext h _ rest); [done|].
      intros r Hr. apply demote_other. by intros ->.
    + by apply NoDup_cons.
    + apply (valid_length h); [apply demote_length|]. by apply Forall_cons.
Qed.

Lemma fix_and_merge_messages_single_pass_witness :
  view (Model.fix_and_merge_messages demoting_model [0; 1; 2; 3] sample_heap).1
       (Model.fix_and_merge_messages demoting_model [0; 1; 2; 3] sample_heap).2
  = spec_normalize false (view sample_heap [0; 1; 2; 3]).
Proof.
  apply (fix_and_merge_messages_single_pass demoting_model [0; 1; 2; 3]
           sample_heap).
  - by apply (bool_decide_unpack _).
  - by apply (bool_decide_unpack _).
Defined.

(** ** Roles along the pass *)

(** The only role the pass ever writes is "user" over "system", and only
    when the role is not supported: every other role stays. *)
Lemma demote_role_stable self h m r :
  system_role_supported self = true ∨ role (h !!! r) ≠ "system"%string →
  role (Model.demote self h m !!! r) = role (h !!! r).
Proof.
  intros [Hs|Hr].
  - by rewrite demote_supported.
  - destruct (decide (r = m)) as [->|Hne].
    + by rewrite demote_not_system.
    + by rewrite demote_other.
Qed.

Lemma fix_step_heap self h fixed m :
  (Model.fix_step self (h, fixed) m).1 = Model.demote self h m
  ∨ ∃ l, (Model.fix_step self (h, fixed) m).1
         = Model.merge (Model.demote self h m) l m.
Proof.
  unfold Model.fix_step. destruct (last fixed) as [l|]; [|by left].
  case_decide; [right; by exists l|by left].
Qed.

Lemma fix_step_role_stable self h fixed m r :
  system_role_supported self = true ∨ role (h !!! r) ≠ "system"%string →
  role ((Model.fix_step self (h, fixed) m).1 !!! r) = role (h !!! r).
Proof.
  intros Hr. destruct (fix_step_heap self h fixed m) as [->|[l ->]].
  - by apply demote_role_stable.
  - rewrite merge_role. by apply demote_role_stable.
Qed.

Lemma fix_loop_role_stable self msgs h fixed r :
  system_role_supported self = true ∨ role (h !!! r) ≠ "system"%string →
  role ((foldl (Model.fix_step self) (h, fixed) msgs).1 !!! r) = role (h !!! r).
Proof.
  revert h fixed. induction msgs as [|m msgs IH]; intros h fixed Hr; [done|].
  cbn [foldl].
  pose proof (fix_step_role_stable self h fixed m r Hr) as Hstep.
  destruct (Model.fix_step self (h, fixed) m) as [h' fixed']. simpl in Hstep.
  rewrite IH; [done|]. destruct Hr as [Hs|Hr]; [by left|right; congruence].
Qed.

(** The first accepted message stays the first. *)
Lemma fix_loop_head self msgs h fixed x :
  head fixed = Some x →
  head (foldl (Model.fix_step self) (h, fixed) msgs).2 = Some x.
Proof.
  revert h fixed. induction msgs as [|m msgs IH]; intros h fixed Hx; [done|].
  cbn [foldl].
  destruct (fix_step_list self h fixed m) as [Hl|Hl];
    destruct (Model.fix_step self (h, fixed) m) as [h' fixed'];
    simpl in Hl; subst fixed'; apply IH; [done|].
  destruct fixed; [done|]. done.
Qed.

(** After the turn for [m], the last accepted message has the role [m]
    has by then, whether [m] was merged or appended. *)
Lemma fix_step_last self h fixed m :
  ∃ l, last (Model.fix_step self (h, fixed) m).2 = Some l
       ∧ role ((Model.fix_step self (h, fixed) m).1 !!! l)
         = role (Model.demote self h m !!! m).
Proof.
  unfold Model.fix_step. destruct (last fixed) as [l|] eqn:Hl.
  - case_decide as Hrole; simpl.
    + exists l. split; [done|]. by rewrite merge_role.
    + exists m. split; [apply last_snoc|done].
  - exists m. split; [apply last_snoc|done].
Qed.

(** ** [Llama2.fix_and_merge_messages] keeps the list and the roles *)

Lemma wrap_role h msg r : role (Llama2.wrap h msg !!! r) = role (h !!! r).
Proof.
  unfold Llama2.wrap.
  repeat case_decide; rewrite ?role_insert_set_content; done.
Qed.

Lemma wrap_loop_role l h r : role (foldl Llama2.wrap h l !!! r) = role (h !!! r).
Proof.
  revert h. induction l as [|m l IH]; intros h; [done|].
  cbn [foldl]. by rewrite IH, wrap_role.
Qed.

Lemma dispatch_list self msgs h :
  (fix_and_merge_messages self msgs h).2
  = (Model.fix_and_merge_messages self msgs h).2.
Proof.
  unfold fix_and_merge_messages, Llama2.fix_and_merge_messages.
  destruct (cls self); try done.
  destruct (Model.fix_and_merge_messages self msgs h).
  by destruct (add_llama_special_tokens self).
Qed.

Lemma dispatch_role self msgs h r :
  role ((fix_and_merge_messages self msgs h).1 !!! r)
  = role ((Model.fix_and_merge_messages self msgs h).1 !!! r).
Proof.
  unfold fix_and_merge_messages, Llama2.fix_and_merge_messages.
  destruct (cls self); try done.
  destruct (Model.fix_and_merge_messages self msgs h).
  destruct (add_llama_special_tokens self); [|done].
  simpl. apply wrap_loop_role.
Qed.

(** The list [Llama2.fix_and_merge_messages] returns alternates as well:
    the tokens change contents only. *)
Lemma dispatch_alternates self msgs h :
  alternates (fix_and_merge_messages self msgs h).1
             (fix_and_merge_messages self msgs h).2.
Proof.
  rewrite dispatch_list.
  apply (alternates_ext (Model.fix_and_merge_messages self msgs h).1).
  - intros r _. apply dispatch_role.
  - intros i a b. apply fix_loop_alternates.
Qed.

(** ** [build_prompt] *)

(** The pass over a list that starts with a system message [sys] of the
    store and ends with an assistant message [asst]. *)
Lemma fix_and_merge_messages_framed self sys asst messages h :
  sys < length h →
  role (h !!! sys) = "system"%string →
  role (h !!! asst) = "assistant"%string →
  head (Model.fix_and_merge_messages self ((sys :: messages) ++ [asst]) h).2
    = Some sys
  ∧ role ((Model.fix_and_merge_messages self ((sys :: messages) ++ [asst]) h).1
            !!! sys)
    = (if system_role_supported self then "system" else "user")%string
  ∧ ∃ l,
      last (Model.fix_and_merge_messages self ((sys :: messages) ++ [asst]) h).2
        = Some l
      ∧ role ((Model.fix_and_merge_messages self
                 ((sys :: messages) ++ [asst]) h).1 !!! l)
        = "assistant"%string.
Proof.
  intros Hsys Hrs Hra.
  set (first := Model.fix_step self (h, []) sys).
  assert (Hfirst : first = (Model.demote self h sys, [sys])) by done.
  assert (Hrole1 : role (first.1 !!! sys)
                   = (if system_role_supported self then "system" else "user")%string).
  { rewrite Hfirst. simpl. rewrite demote_self by done.
    unfold spec_rewrite. rewrite Hrs.
    by destruct (system_role_supported self). }
  assert (Hstable : system_role_supported self = true
                    ∨ role (first.1 !!! sys) ≠ "system"%string).
  { destruct (system_role_supported self); [by left|right]. by rewrite Hrole1. }
  split_and!.
  - unfold Model.fix_and_merge_messages. cbn [foldl app]. fold first.
    rewrite Hfirst. by apply fix_loop_head.
  - unfold Model.fix_and_merge_messages. cbn [foldl app]. fold first.
    destruct first as [h1 f1]. by rewrite fix_loop_role_stable.
  - unfold Model.fix_and_merge_messages. rewrite foldl_snoc.
    assert (Hasst : role ((foldl (Model.fix_step self) (h, []) (sys :: messages)).1
                            !!! asst) = "assistant"%string).
    { rewrite fix_loop_role_stable; [done|]. right. by rewrite Hra. }
    destruct (foldl (Model.fix_step self) (h, []) (sys :: messages))
      as [hm fm].
    destruct (fix_step_last self hm fm asst) as (l & Hl & Hrl).
    exists l. split; [done|]. rewrite Hrl.
    simpl in Hasst. rewrite demote_not_system; [done|]. by rewrite Hasst.
Qed.






(** ** The rendered scaffold *)

Lemma rstrip_app (a b : string) :
  rstrip b ≠ ""%string → rstrip (a +:+ b) = a +:+ rstrip b.
Proof.
  intros Hb. induction a as [|c a IH]; [done|].
  change (String c a +:+ b) with (String c (a +:+ b)).
  change (String c a +:+ rstrip b) with (String c (a +:+ rstrip b)).
  cbn [rstrip]. rewrite IH.
  destruct (a +:+ rstrip b) eqn:Hab; [|done].
  destruct a; [|done]. simpl in Hab. done.
Qed.

Lemma rstrip_app_nonempty (a b : string) :
  rstrip b ≠ ""%string → rstrip (a +:+ b) ≠ ""%string.
Proof.
  intros Hb. rewrite rstrip_app by done.
  destruct a; [done|]. done.
Qed.

Lemma append_assoc (a b c : string) : (a +:+ b) +:+ c = a +:+ (b +:+ c).
Proof.
  induction a as [|x a IH]; [done|].
  change (String x (a +:+ b) +:+ c = String x (a +:+ (b +:+ c))).
  change (String x ((a +:+ b) +:+ c) = String x (a +:+ (b +:+ c))).
  by rewrite IH.
Qed.

Lemma render_system_dict dumped :
  render Model.system_message_jinja2
    [("schema"%string, dumped); ("return_type"%string, "json"%string)]
  = schema_head +:+ dumped +:+ (schema_tail +:+ nl +:+ "    ").
Proof.
  unfold render.
  cbn [map render_node env_get Model.system_message_jinja2].
  repeat (first [rewrite decide_True by done | rewrite decide_False by done]).
  cbn [join]. rewrite !append_assoc. reflexivity.
Qed.

Lemma render_system_str s :
  s ≠ "json"%string →
  render Model.system_message_jinja2
    [("schema"%string, s); ("return_type"%string, s)]
  = instructions_head +:+ "        Your response should be a valid "
    +:+ s +:+ " only" +:+ nl +:+ nl
    +:+ "        Stick to the facts and details in the provided data, and follow the guidelines closely."
    +:+ nl +:+ "        DO NOT add any other text other than the "
    +:+ s +:+ " response" +:+ nl +:+ "    ".
Proof.
  intros Hs. unfold render.
  cbn [map render_node env_get Model.system_message_jinja2].
  repeat (first [rewrite decide_True by done | rewrite decide_False by done]).
  cbn [join]. rewrite !append_assoc. reflexivity.
Qed.

Lemma render_hint_str s :
  s ≠ "json"%string →
  render Model.assistant_hint_jinja2 [("return_type"%string, s)]
  = nl +:+ nl +:+ "    ".
Proof.
  intros Hs. unfold render.
  cbn [map render_node env_get Model.assistant_hint_jinja2].
  repeat (first [rewrite decide_True by done | rewrite decide_False by done]).
  reflexivity.
Qed.

(** In schema mode the system text is the instructions around the
    serialised schema and the hint opens a fenced block. *)
Lemma scaffold_dict dumped :
  Model.scaffold (ParamsDict dumped) = (schema_instructions dumped, "```json"%string).
Proof.
  unfold Model.scaffold. rewrite render_system_dict. f_equal; try by vm_compute.
  unfold strip.
  change (lstrip (schema_head +:+ dumped +:+ (schema_tail +:+ nl +:+ "    ")))
    with (schema_head +:+ dumped +:+ (schema_tail +:+ nl +:+ "    ")).
  assert (Htail : rstrip (schema_tail +:+ nl +:+ "    ") = schema_tail)
    by by vm_compute.
  assert (Hne : rstrip (schema_tail +:+ nl +:+ "    ") ≠ ""%string)
    by by vm_compute.
  rewrite rstrip_app by by apply rstrip_app_nonempty.
  rewrite rstrip_app by done. by rewrite Htail.
Qed.

(** A type name other than "json" takes the other branch of both
    templates; the hint is then empty. *)
Lemma scaffold_str s :
  s ≠ "json"%string →
  Model.scaffold (ParamsStr s) = (plain_instructions s, ""%string).
Proof.
  intros Hs. unfold Model.scaffold.
  rewrite render_system_str, render_hint_str by done.
  f_equal; try by vm_compute.
  unfold strip.
  change (lstrip (instructions_head +:+ ?x)) with (instructions_head +:+ x).
  assert (Hne : rstrip (" response" +:+ nl +:+ "    ") ≠ ""%string)
    by by vm_compute.
  unfold plain_instructions, instructions_tail.
  repeat (rewrite rstrip_app
            by repeat (first [exact Hne | apply rstrip_app_nonempty])).
  by vm_compute.
Qed.

(** ** The Llama prompt *)

(** The pass and the token wrapping on the list [build_prompt] makes of a
    system message and a user message: the caller's system message is
    merged into the injected one, whose object is the one kept. *)
Lemma llama2_fix_and_merge_messages_system_user name A B c hint :
  Llama2.fix_and_merge_messages (Llama2.init name) [2; 0; 1; 3]
    [ mkMessage "system" A; mkMessage "user" B;
      mkMessage "system" c; mkMessage "assistant" hint ]
  = ([ mkMessage "system" A;
       mkMessage "user" ("[INST] " +:+ B +:+ " [/INST]");
       mkMessage "system" ("<<SYS>> " +:+ (c +:+ nl +:+ nl +:+ A) +:+ " <</SYS>>");
       mkMessage "assistant" hint ],
     [2; 1; 3]).
Proof. by vm_compute. Qed.

(** C6. For the Llama class, the messages [{system, A}, {user, B}] and a
    dictionary as return type: after [build_prompt] the system content,
    which is the rendered instructions merged with [A], stands between
    "<<SYS>> " and " <</SYS>>" and the user content between "[INST] " and
    " [/INST]", and the prompt of [bedrock_format] is these two and the
    hint, one per line. *)
Theorem llama2_prompt_wraps_system_and_user
    (name A B dumped : string) (rnd : Q) :
  view (build_prompt (Llama2.init name) [0; 1] (ParamsDict dumped)
          [mkMessage "system" A; mkMessage "user" B]).1.1
       (build_prompt (Llama2.init name) [0; 1] (ParamsDict dumped)
          [mkMessage "system" A; mkMessage "user" B]).2
  = [ mkMessage "system"
        ("<<SYS>> " +:+ schema_instructions dumped +:+ nl +:+ nl +:+ A
         +:+ " <</SYS>>");
      mkMessage "user" ("[INST] " +:+ B +:+ " [/INST]");
      mkMessage "assistant" "```json" ]
  ∧ body_field "prompt"
      (Llama2.bedrock_format (Llama2.init name)
         (build_prompt (Llama2.init name) [0; 1] (ParamsDict dumped)
            [mkMessage "system" A; mkMessage "user" B]).2
         (build_prompt (Llama2.init name) [0; 1] (ParamsDict dumped)
            [mkMessage "system" A; mkMessage "user" B]).1.1 rnd)
    = Some (PStr ("<<SYS>> " +:+ schema_instructions dumped +:+ nl +:+ nl +:+ A
                  +:+ " <</SYS>>" +:+ nl
                  +:+ "[INST] " +:+ B +:+ " [/INST]" +:+ nl
                  +:+ "```json")).
Proof.
  unfold build_prompt, Model.build_prompt. rewrite scaffold_dict.
  generalize (schema_instructions dumped). intros c.
  cbn -[Llama2.fix_and_merge_messages].
  change (fix_and_merge_messages (Llama2.init name))
    with (Llama2.fix_and_merge_messages (Llama2.init name)).
  rewrite llama2_fix_and_merge_messages_system_user.
  cbn. rewrite !append_assoc. done.
Qed.

(** ** The Claude body *)


(** The same two messages sent through [build_prompt] first: the first
    message of the list is then the injected system message, into which
    [A] has been merged, and the assistant hint follows the user
    message. *)
Lemma claude_build_prompt_then_bedrock_format
    (name A B : string) (p : params) (rnd : Q) :
  ∃ body,
    (Claude.bedrock_format (Model.init ClaudeModel name None)
       (build_prompt (Model.init ClaudeModel name None) [0; 1] p
          [mkMessage "system" A; mkMessage "user" B]).2
       (build_prompt (Model.init ClaudeModel name None) [0; 1] p
          [mkMessage "system" A; mkMessage "user" B]).1.1 rnd).2 = Ok body
    ∧ body_field "system" body
      = Some (PStr ((Model.scaffold p).1 +:+ nl +:+ nl +:+ A))
    ∧ body_field "messages" body
      = Some (PList [PDict [("role"%string, PStr "user");
                            ("content"%string, PStr B)];
                     PDict [("role"%string, PStr "assistant");
                            ("content"%string, PStr (Model.scaffold p).2)]]).
Proof.
  unfold build_prompt, Model.build_prompt.
  destruct (Model.scaffold p) as [c hint].
  eexists. split_and!; reflexivity.
Qed.






(** ** The temperature *)

Lemma uniform_unit (rnd : Q) :
  unit_draw rnd → (0 <= uniform 0 1 rnd)%Q ∧ (uniform 0 1 rnd < 1)%Q.
Proof.
  intros [H0 H1]. unfold uniform.
  assert (Heq : (0 + (1 - 0) * rnd == rnd)%Q) by ring.
  rewrite Heq. done.
Qed.

(** Every body carries [model_settings.get("temperature") or
    uniform(0, 1)]. *)
Lemma bedrock_format_temperature self msgs h rnd h' msgs' body :
  bedrock_format self msgs h rnd = (h', msgs', Ok body) →
  body_field "temperature" body
  = Some (py_or (get (model_settings self) "temperature")
                (PFloat (uniform 0 1 rnd))).
Proof.
  unfold bedrock_format, CohereCommand.bedrock_format,
    CohereCommandR.bedrock_format, Claude.bedrock_format.
  destruct (cls self); intros Heq.
  - done.
  - by injection Heq as _ _ <-.
  - destruct (CohereCommand.format_messages msgs h) as [h1 [out|e]];
      [|done]. by injection Heq as _ _ <-.
  - destruct (CohereCommand.format_messages msgs h) as [h1 [out|e]];
      [|done]. by injection Heq as _ _ <-.
  - destruct msgs as [|m rest]; [done|]. by injection Heq as _ _ <-.
Qed.

(** A configured value that counts as true is passed on. *)
Lemma bedrock_format_temperature_configured self msgs h rnd h' msgs' body v :
  bedrock_format self msgs h rnd = (h', msgs', Ok body) →
  model_settings self !! "temperature"%string = Some v →
  truthy v = true →
  body_field "temperature" body = Some v.
Proof.
  intros Hb Hv Ht. rewrite (bedrock_format_temperature _ _ _ _ _ _ _ Hb).
  unfold get, py_or. rewrite Hv. simpl. by rewrite Ht.
Qed.

(** Without the key the value is the draw, a number of [0, 1). *)
Lemma bedrock_format_temperature_default self msgs h rnd h' msgs' body :
  bedrock_format self msgs h rnd = (h', msgs', Ok body) →
  model_settings self !! "temperature"%string = None →
  unit_draw rnd →
  ∃ q, body_field "temperature" body = Some (PFloat q)
       ∧ (0 <= q)%Q ∧ (q < 1)%Q.
Proof.
  intros Hb Hv Hr. rewrite (bedrock_format_temperature _ _ _ _ _ _ _ Hb).
  unfold get, py_or. rewrite Hv. simpl.
  exists (uniform 0 1 rnd). split; [done|]. by apply uniform_unit.
Qed.

(** C4, at the settings [{"temperature": 0}]: the key is present, and the
    body does not carry the configured 0 but the number drawn, because
    [or] takes 0 for false. *)
Theorem claude_temperature_zero_is_replaced (rnd : Q) :
  model_settings claude_zero !! "temperature"%string = Some (PInt 0)
  ∧ ∃ body,
      (Claude.bedrock_format claude_zero [0; 1] sample_heap rnd).2 = Ok body
      ∧ body_field "temperature" body = Some (PFloat (uniform 0 1 rnd))
      ∧ body_field "temperature" body ≠ Some (PInt 0).
Proof.
  split; [done|]. eexists. split_and!; [reflexivity|reflexivity|done].
Qed.

(** ** [CohereCommand.format_messages] *)

Lemma role_converter_known r :
  known_role r → is_Some (CohereCommand.role_converter !! r).
Proof. intros [-> | [-> | ->]]; by eexists. Qed.

Lemma instruct_role h msg r :
  role (CohereCommand.instruct h msg !!! r) = role (h !!! r).
Proof.
  unfold CohereCommand.instruct. case_decide; [|done].
  apply role_insert_set_content.
Qed.

Lemma instruct_other h msg r :
  r ≠ msg → CohereCommand.instruct h msg !!! r = h !!! r.
Proof.
  intros Hne. unfold CohereCommand.instruct. case_decide; [|done].
  by apply lookup_total_insert_other.
Qed.

Lemma instruct_self h msg :
  CohereCommand.instruct h msg !!! msg = cohere_written 1 (h !!! msg).
Proof.
  unfold CohereCommand.instruct, cohere_written. case_decide as Hr; [|done].
  by rewrite list_lookup_total_insert_eq by by apply role_system_in_store.
Qed.

Lemma instruct_loop_role msgs h r :
  role (foldl CohereCommand.instruct h msgs !!! r) = role (h !!! r).
Proof.
  revert h. induction msgs as [|m msgs IH]; intros h; [done|].
  cbn [foldl]. by rewrite IH, instruct_role.
Qed.

(** On distinct objects, each system message of the list is written
    once; everything else is as it was. *)
Lemma instruct_loop_lookup msgs h r :
  NoDup msgs →
  foldl CohereCommand.instruct h msgs !!! r
  = if decide (r ∈ msgs) then cohere_written 1 (h !!! r) else h !!! r.
Proof.
  revert h. induction msgs as [|m msgs IH]; intros h Hnd.
  - cbn [foldl]. case_decide as Hin; [by apply elem_of_nil in Hin|done].
  - apply NoDup_cons in Hnd as (Hm & Hnd). cbn [foldl]. rewrite IH by done.
    destruct (decide (r = m)) as [->|Hne].
    + rewrite decide_False by done.
      rewrite decide_True by constructor. apply instruct_self.
    + rewrite instruct_other by done.
      destruct (decide (r ∈ msgs)) as [Hin|Hnin].
      * by rewrite decide_True by by constructor.
      * rewrite decide_False; [done|].
        intros Hin. apply elem_of_cons in Hin as [?|?]; done.
Qed.

(** The loop never raises on roles of the table, leaves in the store what
    the writes of [instruct] leave, and converts each role by the table. *)
Lemma format_loop_roles msgs h output :
  Forall (λ r, known_role (role (h !!! r))) msgs →
  ∃ out,
    CohereCommand.format_loop msgs h output
    = (foldl CohereCommand.instruct h msgs, Ok (output ++ out))
    ∧ Forall2 (λ r e, CohereCommand.role_converter !! role (h !!! r)
                      = Some (entry_role e)) msgs out.
Proof.
  revert h output. induction msgs as [|m msgs IH]; intros h output Hk.
  - exists []. by rewrite app_nil_r.
  - apply Forall_cons in Hk as (Hm & Hk). cbn [CohereCommand.format_loop foldl].
    rewrite instruct_role.
    destruct (role_converter_known _ Hm) as [c Hc]. rewrite Hc.
    destruct (IH (CohereCommand.instruct h m)
                (output ++ [mkEntry c
                   (content (CohereCommand.instruct h m !!! m))]))
      as (out & Hout & Hall).
    { eapply Forall_impl; [exact Hk|]. intros r Hr. simpl.
      by rewrite instruct_role. }
    eexists (_ :: out). rewrite Hout, <- app_assoc. split; [done|].
    constructor; [done|].
    eapply Forall2_impl; [exact Hall|]. intros r e. simpl.
    by rewrite instruct_role.
Qed.

(** On distinct objects the entries are those of the message values the
    call found. *)
Lemma format_loop_nodup msgs h output :
  NoDup msgs →
  Forall (λ r, known_role (role (h !!! r))) msgs →
  CohereCommand.format_loop msgs h output
  = (foldl CohereCommand.instruct h msgs,
     Ok (output ++ map (λ r, cohere_entry 1 (h !!! r)) msgs)).
Proof.
  revert h output. induction msgs as [|m msgs IH]; intros h output Hnd Hk.
  - simpl. by rewrite app_nil_r.
  - apply NoDup_cons in Hnd as (Hm & Hnd).
    apply Forall_cons in Hk as (Hkm & Hk).
    cbn [CohereCommand.format_loop foldl map].
    rewrite instruct_role.
    destruct (role_converter_known _ Hkm) as [c Hc]. rewrite Hc.
    assert (He : mkEntry c (content (CohereCommand.instruct h m !!! m))
                 = cohere_entry 1 (h !!! m)).
    { rewrite instruct_self. unfold cohere_entry, cohere_written.
      rewrite Hc. simpl. by case_decide. }
    assert (Hmap : map (λ r, cohere_entry 1 (CohereCommand.instruct h m !!! r)) msgs
                   = map (λ r, cohere_entry 1 (h !!! r)) msgs).
    { apply map_ext_in. intros r Hr. rewrite instruct_other; [done|].
      intros ->. by apply list_elem_of_In in Hr. }
    rewrite IH; [|done|].
    + by rewrite He, Hmap, <- app_assoc.
    + eapply Forall_impl; [exact Hk|]. intros r Hr. simpl.
      by rewrite instruct_role.
Qed.

Lemma cohere_entry_written n m :
  cohere_entry 1 (cohere_written n m) = cohere_entry (S n) m.
Proof.
  unfold cohere_entry, cohere_written.
  destruct (decide (role m = "system"%string)) as [Hr|Hr]; simpl.
  - by rewrite decide_True by done.
  - by rewrite decide_False by done.
Qed.

(** C5. [format_messages] converts roles by the table user to USER,
    system to USER, assistant to CHATBOT: on messages of these roles it
    returns one entry for each message, whose role is the table's entry
    for the role of the message; and the one system message with the
    content [A] becomes the entry with the role USER and the message
    "## Instructions", a line break and [A]. *)
Theorem format_messages_converts_roles :
  (CohereCommand.role_converter !! "user"%string = Some "USER"%string
   ∧ CohereCommand.role_converter !! "system"%string = Some "USER"%string
   ∧ CohereCommand.role_converter !! "assistant"%string = Some "CHATBOT"%string)
  ∧ (∀ (msgs : list ref) (h : heap),
       Forall (λ r, known_role (role (h !!! r))) msgs →
       ∃ out,
         (CohereCommand.format_messages msgs h).2 = Ok out
         ∧ Forall2 (λ r e, CohereCommand.role_converter !! role (h !!! r)
                           = Some (entry_role e)) msgs out)
  ∧ (∀ A : string,
       (CohereCommand.format_messages [0] [mkMessage "system" A]).2
       = Ok [mkEntry "USER" ("## Instructions" +:+ nl +:+ A)]).
Proof.
  split_and!; try done.
  intros msgs h Hk. unfold CohereCommand.format_messages.
  destruct (format_loop_roles msgs h [] Hk) as (out & Hout & Hall).
  exists out. by rewrite Hout.
Qed.

Lemma format_messages_converts_roles_witness :
  ∃ out,
    (CohereCommand.format_messages [0; 1; 3] sample_heap).2 = Ok out
    ∧ Forall2 (λ r e, CohereCommand.role_converter !! role (sample_heap !!! r)
                      = Some (entry_role e)) [0; 1; 3] out.
Proof.
  apply (proj1 (proj2 format_messages_converts_roles) [0; 1; 3] sample_heap).
  by apply (bool_decide_unpack _).
Defined.

(** For a role of the table, the line of the prompt is the role and the
    message of the entry with a colon between them. *)
Lemma cohere_line_entry n m :
  known_role (role m) →
  entry_role (cohere_entry n m) +:+ ": " +:+ entry_message (cohere_entry n m)
  = cohere_line n m.
Proof.
  unfold cohere_entry, cohere_line. cbn [entry_role entry_message].
  intros [Hr | [Hr | Hr]]; rewrite Hr; reflexivity.
Qed.

(** C9. [format_messages] writes to the caller's messages: on distinct
    message objects of roles of the table, the first call returns the
    entries of the messages as they were and leaves each system message
    with "## Instructions" and a line break in front of its content,
    everything else unchanged; a second call on the same list then has
    the prefix twice at each system message, and so has the prompt of a
    [bedrock_format] on it, which is one line for each message: USER or
    CHATBOT, a colon, and the content, behind two prefixes if the message
    is a system message. *)
Theorem format_messages_mutates_messages
    (self : instance) (msgs : list ref) (h : heap) (rnd : Q) :
  NoDup msgs →
  Forall (λ r, known_role (role (h !!! r))) msgs →
  (CohereCommand.format_messages msgs h).2
    = Ok (map (λ r, cohere_entry 1 (h !!! r)) msgs)
  ∧ (∀ r, (CohereCommand.format_messages msgs h).1 !!! r
          = if decide (r ∈ msgs) then cohere_written 1 (h !!! r) else h !!! r)
  ∧ (CohereCommand.format_messages msgs
       (CohereCommand.format_messages msgs h).1).2
    = Ok (map (λ r, cohere_entry 2 (h !!! r)) msgs)
  ∧ ∃ body,
      (CohereCommand.bedrock_format self msgs
         (CohereCommand.format_messages msgs h).1 rnd).2 = Ok body
      ∧ body_field "prompt" body
        = Some (PStr (join nl (map (λ r, cohere_line 2 (h !!! r)) msgs))).
Proof.
  intros Hnd Hk.
  assert (H1 : CohereCommand.format_messages msgs h
               = (foldl CohereCommand.instruct h msgs,
                  Ok (map (λ r, cohere_entry 1 (h !!! r)) msgs)))
    by by apply format_loop_nodup.
  assert (Hk1 : Forall (λ r, known_role
                     (role (foldl CohereCommand.instruct h msgs !!! r))) msgs).
  { eapply Forall_impl; [exact Hk|]. intros r Hr. simpl.
    by rewrite instruct_loop_role. }
  assert (H2 : CohereCommand.format_messages msgs
                 (foldl CohereCommand.instruct h msgs)
               = (foldl CohereCommand.instruct
                    (foldl CohereCommand.instruct h msgs) msgs,
                  Ok (map (λ r, cohere_entry 2 (h !!! r)) msgs))).
  { unfold CohereCommand.format_messages.
    rewrite format_loop_nodup by done. do 2 f_equal.
    apply map_ext_in. intros r Hr. apply list_elem_of_In in Hr.
    rewrite instruct_loop_lookup by done. rewrite decide_True by done.
    apply cohere_entry_written. }
  rewrite H1. simpl. split_and!.
  - done.
  - intros r. by apply instruct_loop_lookup.
  - by rewrite H2.
  - unfold CohereCommand.bedrock_format. rewrite H2.
    eexists. split; [reflexivity|].
    cbn [body_field field]. rewrite decide_True by done.
    unfold CohereCommand.prompt_of. rewrite map_map. do 3 f_equal.
    apply map_ext_in. intros r Hr. apply list_elem_of_In in Hr.
    by apply cohere_line_entry, (proj1 (Forall_forall _ _) Hk).
Qed.

Lemma format_messages_mutates_messages_witness :
  ∃ body,
    (CohereCommand.bedrock_format base_model [0; 1; 3]
       (CohereCommand.format_messages [0; 1; 3] sample_heap).1 0).2 = Ok body
    ∧ body_field "prompt" body
      = Some (PStr ("USER: ## Instructions" +:+ nl +:+ "## Instructions"
                    +:+ nl +:+ "A" +:+ nl +:+ "USER: B" +:+ nl
                    +:+ "CHATBOT: D")).
Proof.
  refine (proj2 (proj2 (proj2
    (format_messages_mutates_messages base_model [0; 1; 3] sample_heap 0 _ _)))).
  - by apply (bool_decide_unpack _).
  - by apply (bool_decide_unpack _).
Defined.

(** ** Running the pass again on the caller's own list *)

(** Idempotence is about the list returned. The caller's list still holds
    the messages that were merged away, and their content is merged a
    second time by a second pass over it. *)
Example fix_and_merge_messages_again_on_input :
  view (Model.fix_and_merge_messages base_model [1; 2] sample_heap).1
       (Model.fix_and_merge_messages base_model [1; 2] sample_heap).2
  = [mkMessage "user" ("B" +:+ nl +:+ nl +:+ "C")]
  ∧ view (Model.fix_and_merge_messages base_model [1; 2]
            (Model.fix_and_merge_messages base_model [1; 2] sample_heap).1).1
         (Model.fix_and_merge_messages base_model [1; 2]
            (Model.fix_and_merge_messages base_model [1; 2] sample_heap).1).2
    = [mkMessage "user" ("B" +:+ nl +:+ nl +:+ "C" +:+ nl +:+ nl +:+ "C")].
Proof. split; reflexivity. Qed.

(** * Further properties of the module *)

(** ** What a pass writes and what it leaves *)

Lemma fix_step_length self h fixed m :
  length (Model.fix_step self (h, fixed) m).1 = length h.
Proof.
  destruct (fix_step_heap self h fixed m) as [->|[l ->]].
  - apply demote_length.
  - by rewrite merge_length, demote_length.
Qed.

Lemma fix_step_frame self h fixed m r :
  r ≠ m → r ∉ fixed → (Model.fix_step self (h, fixed) m).1 !!! r = h !!! r.
Proof.
  intros Hm Hf. unfold Model.fix_step.
  destruct (last fixed) as [l|] eqn:Hl; simpl; [|by apply demote_other].
  case_decide; simpl; [|by apply demote_other].
  rewrite merge_other; [by apply demote_other|].
  intros ->. apply Hf. by apply last_Some_elem_of.
Qed.

Lemma fix_loop_length self msgs h fixed :
  length (foldl (Model.fix_step self) (h, fixed) msgs).1 = length h.
Proof.
  revert h fixed. induction msgs as [|m msgs IH]; intros h fixed; [done|].
  cbn [foldl]. pose proof (fix_step_length self h fixed m) as Hlen.
  destruct (Model.fix_step self (h, fixed) m) as [h' fixed'].
  by rewrite IH.
Qed.

Lemma fix_loop_frame self msgs h fixed r :
  r ∉ fixed → r ∉ msgs →
  (foldl (Model.fix_step self) (h, fixed) msgs).1 !!! r = h !!! r.
Proof.
  revert h fixed. induction msgs as [|m msgs IH]; intros h fixed Hf Hm; [done|].
  apply not_elem_of_cons in Hm as (Hne & Hm). cbn [foldl].
  pose proof (fix_step_frame self h fixed m r Hne Hf) as Hstep.
  pose proof (fix_step_list self h fixed m) as Hlist.
  destruct (Model.fix_step self (h, fixed) m) as [h' fixed'].
  simpl in Hstep, Hlist. rewrite IH; [done| |done].
  destruct Hlist as [->| ->]; [done|].
  intros Hin. apply elem_of_app in Hin as [Hin|Hin]; [done|].
  by apply list_elem_of_singleton in Hin.
Qed.

Lemma wrap_other h msg r : r ≠ msg → Llama2.wrap h msg !!! r = h !!! r.
Proof.
  intros Hne. unfold Llama2.wrap.
  repeat case_decide; rewrite ?lookup_total_insert_other by done; done.
Qed.

Lemma wrap_length h msg : length (Llama2.wrap h msg) = length h.
Proof. unfold Llama2.wrap. repeat case_decide; by rewrite ?length_insert. Qed.

Lemma wrap_loop_other l h r :
  r ∉ l → foldl Llama2.wrap h l !!! r = h !!! r.
Proof.
  revert h. induction l as [|m l IH]; intros h Hr; [done|].
  apply not_elem_of_cons in Hr as (Hne & Hr). cbn [foldl].
  by rewrite IH, wrap_other.
Qed.

Lemma wrap_loop_length l h : length (foldl Llama2.wrap h l) = length h.
Proof.
  revert h. induction l as [|m l IH]; intros h; [done|].
  cbn [foldl]. by rewrite IH, wrap_length.
Qed.

Lemma dispatch_frame (self : instance) (msgs : list ref) (h : heap) :
  length (fix_and_merge_messages self msgs h).1 = length h
  ∧ ∀ r, r ∉ msgs → (fix_and_merge_messages self msgs h).1 !!! r = h !!! r.
Proof.
  assert (Hbase : length (Model.fix_and_merge_messages self msgs h).1 = length h
                  ∧ ∀ r, r ∉ msgs →
                      (Model.fix_and_merge_messages self msgs h).1 !!! r = h !!! r).
  { split; [apply fix_loop_length|].
    intros r Hr. apply fix_loop_frame; [apply not_elem_of_nil|done]. }
  pose proof (fix_loop_sublist self msgs h []) as Hsub.
  unfold fix_and_merge_messages, Llama2.fix_and_merge_messages.
  destruct (cls self); try exact Hbase.
  unfold Model.fix_and_merge_messages in *.
  destruct (foldl (Model.fix_step self) (h, []) msgs) as [h1 out].
  destruct (add_llama_special_tokens self); [|exact Hbase].
  simpl in *. destruct Hbase as [Hlen Hframe]. split.
  - by rewrite wrap_loop_length.
  - intros r Hr. rewrite wrap_loop_other; [by apply Hframe|].
    intros Hin. apply Hr. eapply elem_of_sublist; [exact Hin|exact Hsub].
Qed.

(** Normalisation, in every class, keeps the number of objects of the
    store and writes to no message outside the list it is given. *)
Theorem normalisation_frame (self : instance) (msgs : list ref) (h : heap) :
  length (fix_and_merge_messages self msgs h).1 = length h
  ∧ ∀ r, r ∉ msgs → (fix_and_merge_messages self msgs h).1 !!! r = h !!! r.
Proof. apply dispatch_frame. Qed.

Lemma normalisation_frame_witness :
  (fix_and_merge_messages (Llama2.init "llama") [0; 1; 3] sample_heap).1 !!! 2
  = sample_heap !!! 2.
Proof.
  refine (proj2 (normalisation_frame (Llama2.init "llama") [0; 1; 3]
                   sample_heap) 2 _).
  by apply (bool_decide_unpack _).
Defined.

(** ** Roles *)

Lemma role_moved_refl self a : role_moved self a a.
Proof. by left. Qed.

Lemma demote_role_moved self h m r :
  role_moved self (role (h !!! r)) (role (Model.demote self h m !!! r)).
Proof.
  destruct (system_role_supported self) eqn:Hs.
  - rewrite demote_supported by done. by left.
  - destruct (decide (role (h !!! r) = "system"%string)) as [Hr|Hr].
    + destruct (decide (r = m)) as [->|Hne].
      * right. split_and!; [done|done|].
        unfold Model.demote. rewrite Hs, Hr. simpl.
        by rewrite list_lookup_total_insert_eq by by apply role_system_in_store.
      * rewrite demote_other by done. by left.
    + rewrite demote_role_stable by (by right). by left.
Qed.

Lemma fix_step_role_moved self h fixed m r :
  role_moved self (role (h !!! r))
    (role ((Model.fix_step self (h, fixed) m).1 !!! r)).
Proof.
  destruct (fix_step_heap self h fixed m) as [->|[l ->]].
  - apply demote_role_moved.
  - rewrite merge_role. apply demote_role_moved.
Qed.

Lemma fix_loop_role_moved self msgs h fixed r :
  role_moved self (role (h !!! r))
    (role ((foldl (Model.fix_step self) (h, fixed) msgs).1 !!! r)).
Proof.
  revert h fixed. induction msgs as [|m msgs IH]; intros h fixed; [by left|].
  cbn [foldl].
  pose proof (fix_step_role_moved self h fixed m r) as Hstep.
  destruct (Model.fix_step self (h, fixed) m) as [h' fixed'] eqn:Hfs.
  simpl in Hstep. destruct Hstep as [Heq|(Hs & Hb & Ha)].
  - rewrite <- Heq. apply IH.
  - right. split_and!; [done|done|].
    rewrite fix_loop_role_stable; [done|]. right. by rewrite Ha.
Qed.

(** The only write to a role, in every class, is "user" over "system"
    where the system role is not supported: every other role of the
    store is after the pass what it was before, and with the system role
    supported so is every role. *)
Theorem normalisation_roles (self : instance) (msgs : list ref) (h : heap)
    (r : ref) :
  role_moved self (role (h !!! r))
    (role ((fix_and_merge_messages self msgs h).1 !!! r)).
Proof. rewrite dispatch_role. apply fix_loop_role_moved. Qed.

Lemma dispatch_no_system self msgs h :
  no_system self (fix_and_merge_messages self msgs h).1
                 (fix_and_merge_messages self msgs h).2.
Proof.
  intros Hs r Hr. rewrite dispatch_role. rewrite dispatch_list in Hr.
  destruct (fix_loop_invariant self msgs h []) as [_ Hns].
  - apply alternates_nil.
  - intros _ x Hx. by apply elem_of_nil in Hx.
  - by apply Hns.
Qed.

(** Where the system role is not supported, no message of the returned
    list is a system message. *)
Theorem normalisation_demotes_every_system
    (self : instance) (msgs : list ref) (h : heap) (r : ref) :
  system_role_supported self = false →
  r ∈ (fix_and_merge_messages self msgs h).2 →
  role ((fix_and_merge_messages self msgs h).1 !!! r) ≠ "system"%string.
Proof. intros Hs Hr. by apply dispatch_no_system. Qed.

Lemma normalisation_demotes_every_system_witness :
  role ((fix_and_merge_messages demoting_model [0; 1; 2; 3] sample_heap).1 !!! 0)
  ≠ "system"%string.
Proof.
  apply (normalisation_demotes_every_system demoting_model [0; 1; 2; 3]
           sample_heap 0); [reflexivity|].
  by apply (bool_decide_unpack _).
Defined.

(** The first message of the list is always accepted: the returned list
    starts with the message the input starts with, in every class. *)
Theorem normalisation_keeps_first (self : instance) (msgs : list ref) (h : heap) :
  head (fix_and_merge_messages self msgs h).2 = head msgs.
Proof.
  rewrite dispatch_list. destruct msgs as [|m msgs]; [done|].
  unfold Model.fix_and_merge_messages. cbn [foldl].
  change (Model.fix_step self (h, []) m) with (Model.demote self h m, [m]).
  by apply fix_loop_head.
Qed.

(** A list that alternates already, and holds no system message where
    that role is not supported, comes back as it is and nothing is
    written to the store. *)
Theorem normalisation_of_normal_list
    (self : instance) (msgs : list ref) (h : heap) :
  alternates h msgs → no_system self h msgs →
  Model.fix_and_merge_messages self msgs h = (h, msgs).
Proof.
  intros Halt Hns. unfold Model.fix_and_merge_messages.
  by rewrite fix_loop_fixed_point.
Qed.

Lemma normalisation_of_normal_list_witness :
  Model.fix_and_merge_messages base_model [0; 1; 3] sample_heap
  = (sample_heap, [0; 1; 3]).
Proof.
  apply (normalisation_of_normal_list base_model [0; 1; 3] sample_heap).
  - intros i a b Ha Hb.
    destruct i as [|[|[|i]]]; simpl in Ha, Hb; try done;
      injection Ha as <-; injection Hb as <-; done.
  - intros Hs. done.
Defined.

(** ** Contents *)

Lemma append_nil_r (a : string) : a +:+ "" = a.
Proof.
  induction a as [|x a IH]; [done|].
  change (String x (a +:+ "") = String x a). by rewrite IH.
Qed.

Lemma merge_content_extends h l m r :
  ∃ s, content (Model.merge h l m !!! r) = content (h !!! r) +:+ s.
Proof.
  unfold Model.merge.
  destruct (decide (l = r)) as [->|Hne].
  - destruct (decide (r < length h)) as [Hlt|Hge].
    + rewrite list_lookup_total_insert_eq by done. by eexists.
    + rewrite list_insert_ge by lia. exists ""%string. by rewrite append_nil_r.
  - rewrite lookup_total_insert_other by done.
    exists ""%string. by rewrite append_nil_r.
Qed.

Lemma fix_step_content_extends self h fixed m r :
  ∃ s, content ((Model.fix_step self (h, fixed) m).1 !!! r)
       = content (h !!! r) +:+ s.
Proof.
  destruct (fix_step_heap self h fixed m) as [->|[l ->]].
  - exists ""%string. by rewrite demote_content, append_nil_r.
  - destruct (merge_content_extends (Model.demote self h m) l m r) as [s Hs].
    exists s. by rewrite Hs, demote_content.
Qed.

Lemma fix_loop_content_extends self msgs h fixed r :
  ∃ s, content ((foldl (Model.fix_step self) (h, fixed) msgs).1 !!! r)
       = content (h !!! r) +:+ s.
Proof.
  revert h fixed. induction msgs as [|m msgs IH]; intros h fixed.
  - exists ""%string. by rewrite append_nil_r.
  - cbn [foldl].
    destruct (fix_step_content_extends self h fixed m r) as [s1 Hs1].
    destruct (Model.fix_step self (h, fixed) m) as [h' fixed'].
    destruct (IH h' fixed') as [s2 Hs2].
    exists (s1 +:+ s2). simpl in Hs1. by rewrite Hs2, Hs1, append_assoc.
Qed.

(** The pass of [Model] never takes text away and never writes in front
    of it: the content of every message of the store is afterwards its
    content before, followed by what was merged into it, if anything. *)
Theorem normalisation_appends_only
    (self : instance) (msgs : list ref) (h : heap) (r : ref) :
  ∃ s, content ((Model.fix_and_merge_messages self msgs h).1 !!! r)
       = content (h !!! r) +:+ s.
Proof. apply fix_loop_content_extends. Qed.

Lemma spec_rewrite_content supported m :
  content (spec_rewrite supported m) = content m.
Proof. unfold spec_rewrite. by destruct (_ && _). Qed.

Lemma spec_normalize_from_cons supported cur rest :
  ∃ x l, spec_normalize_from supported cur rest = x :: l.
Proof.
  revert cur. induction rest as [|m rest IH]; intros cur; simpl; [by eexists _, _|].
  case_decide; [apply IH|by eexists _, _].
Qed.

Lemma join_cons_cons sep a b l :
  join sep (a :: b :: l) = a +:+ sep +:+ join sep (b :: l).
Proof. done. Qed.

Lemma join_merged a b l :
  join blank_line ((a +:+ nl +:+ nl +:+ b) :: l)
  = a +:+ blank_line +:+ join blank_line (b :: l).
Proof.
  destruct l as [|x l].
  - cbn [join]. unfold blank_line. by rewrite !append_assoc.
  - rewrite !join_cons_cons. unfold blank_line. by rewrite !append_assoc.
Qed.

Lemma spec_normalize_from_contents supported cur rest :
  join blank_line (map content (spec_normalize_from supported cur rest))
  = join blank_line (content cur :: map content rest).
Proof.
  revert cur. induction rest as [|m rest IH]; intros cur; [done|].
  cbn [spec_normalize_from map]. case_decide as Hrole.
  - rewrite IH. unfold spec_concat. cbn [content set_content].
    rewrite spec_rewrite_content. apply join_merged.
  - destruct (spec_normalize_from_cons supported (spec_rewrite supported m) rest)
      as (x & l & Hxl).
    cbn [map]. pose proof (IH (spec_rewrite supported m)) as IHm.
    rewrite Hxl in *. cbn [map] in *.
    rewrite join_cons_cons, IHm, spec_rewrite_content. done.
Qed.

(** The values a pass over distinct objects of the store returns are
    those of the spec's description of normalisation. *)
Lemma fix_and_merge_messages_refines self msgs h :
  valid h msgs → NoDup msgs →
  view (Model.fix_and_merge_messages self msgs h).1
       (Model.fix_and_merge_messages self msgs h).2
  = spec_normalize (system_role_supported self) (view h msgs).
Proof.
  intros Hv Hnd. unfold Model.fix_and_merge_messages.
  destruct msgs as [|m rest]; [done|].
  cbn [foldl]. change (Model.fix_step self (h, []) m)
    with (Model.demote self h m, [] ++ [m]).
  apply NoDup_cons in Hnd as (Hm & Hrest).
  apply Forall_cons in Hv as (Hvm & Hvrest).
  rewrite fix_loop_refines.
  - simpl. rewrite demote_self by done.
    rewrite (view_ext h _ rest); [done|].
    intros r Hr. apply demote_other. by intros ->.
  - by apply NoDup_cons.
  - apply (valid_length h); [apply demote_length|]. by apply Forall_cons.
Qed.

(** No content is lost or reordered by a pass over distinct messages:
    the contents of the returned messages, put together with an empty
    line between them, are the contents of the input put together with an
    empty line between them. *)
Theorem normalisation_conserves_content
    (self : instance) (msgs : list ref) (h : heap) :
  valid h msgs → NoDup msgs →
  join blank_line
    (map content (view (Model.fix_and_merge_messages self msgs h).1
                       (Model.fix_and_merge_messages self msgs h).2))
  = join blank_line (map content (view h msgs)).
Proof.
  intros Hv Hnd. rewrite fix_and_merge_messages_refines by done.
  destruct msgs as [|m rest]; [done|].
  cbn [view map spec_normalize]. rewrite spec_normalize_from_contents.
  by rewrite spec_rewrite_content.
Qed.

Lemma normalisation_conserves_content_witness :
  join blank_line
    (map content
       (view (Model.fix_and_merge_messages demoting_model [0; 1; 2; 3] sample_heap).1
             (Model.fix_and_merge_messages demoting_model [0; 1; 2; 3] sample_heap).2))
  = join blank_line (map content (view sample_heap [0; 1; 2; 3])).
Proof.
  apply (normalisation_conserves_content demoting_model [0; 1; 2; 3] sample_heap).
  - by apply (bool_decide_unpack _).
  - by apply (bool_decide_unpack _).
Defined.

(** ** The Llama tokens *)

(** A reference outside the store reads as the message with the empty
    role, so a message with a role is in the store. *)
Lemma role_in_store (h : heap) (r : ref) :
  role (h !!! r) ≠ ""%string → r < length h.
Proof.
  intros Hr. destruct (decide (r < length h)) as [|Hge]; [done|].
  rewrite list_lookup_total_alt, lookup_ge_None_2 in Hr by lia. done.
Qed.

Lemma wrap_self h msg : Llama2.wrap h msg !!! msg = llama_tokens (h !!! msg).
Proof.
  unfold Llama2.wrap, llama_tokens.
  destruct (decide (role (h !!! msg) = "system"%string)) as [Hs|Hs].
  - assert (msg < length h) by (apply role_in_store; by rewrite Hs).
    rewrite !list_lookup_total_insert_eq by done.
    rewrite decide_False; [|simpl; by rewrite Hs].
    by rewrite list_lookup_total_insert_eq by done.
  - destruct (decide (role (h !!! msg) = "user"%string)) as [Hu|Hu]; [|done].
    assert (msg < length h) by (apply role_in_store; by rewrite Hu).
    by rewrite list_lookup_total_insert_eq by done.
Qed.

Lemma wrap_loop_lookup l h r :
  NoDup l →
  foldl Llama2.wrap h l !!! r
  = if decide (r ∈ l) then llama_tokens (h !!! r) else h !!! r.
Proof.
  revert h. induction l as [|m l IH]; intros h Hnd.
  - cbn [foldl]. case_decide as Hin; [by apply elem_of_nil in Hin|done].
  - apply NoDup_cons in Hnd as (Hm & Hnd). cbn [foldl]. rewrite IH by done.
    destruct (decide (r = m)) as [->|Hne].
    + rewrite decide_False by done.
      rewrite decide_True by constructor. apply wrap_self.
    + rewrite wrap_other by done.
      destruct (decide (r ∈ l)) as [Hin|Hnin].
      * by rewrite decide_True by by constructor.
      * rewrite decide_False; [done|].
        intros Hin. apply elem_of_cons in Hin as [?|?]; done.
Qed.

(** [Llama2.fix_and_merge_messages] returns the list of the pass of
    [Model]; on distinct messages each returned message is the one of
    that pass with its content between the tokens of its role, system or
    user, and an assistant message is never wrapped; with
    [add_llama_special_tokens] off nothing is wrapped. *)
Theorem llama2_tokens_by_role (self : instance) (msgs : list ref) (h : heap) :
  NoDup msgs →
  (Llama2.fix_and_merge_messages self msgs h).2
    = (Model.fix_and_merge_messages self msgs h).2
  ∧ view (Llama2.fix_and_merge_messages self msgs h).1
         (Llama2.fix_and_merge_messages self msgs h).2
    = if add_llama_special_tokens self
      then map llama_tokens
             (view (Model.fix_and_merge_messages self msgs h).1
                   (Model.fix_and_merge_messages self msgs h).2)
      else view (Model.fix_and_merge_messages self msgs h).1
                (Model.fix_and_merge_messages self msgs h).2.
Proof.
  intros Hnd.
  pose proof (fix_loop_sublist self msgs h []) as Hsub.
  unfold Llama2.fix_and_merge_messages, Model.fix_and_merge_messages in *.
  destruct (foldl (Model.fix_step self) (h, []) msgs) as [h1 out].
  simpl in Hsub. assert (Hout : NoDup out) by by eapply sublist_NoDup.
  destruct (add_llama_special_tokens self); simpl; [|done].
  split; [done|]. unfold view. rewrite map_map. apply map_ext_in.
  intros r Hr. apply list_elem_of_In in Hr.
  rewrite wrap_loop_lookup by done. by rewrite decide_True.
Qed.

Lemma llama2_tokens_by_role_witness :
  view (Llama2.fix_and_merge_messages (Llama2.init "llama") [0; 1; 2; 3] sample_heap).1
       (Llama2.fix_and_merge_messages (Llama2.init "llama") [0; 1; 2; 3] sample_heap).2
  = map llama_tokens
      (view (Model.fix_and_merge_messages (Llama2.init "llama") [0; 1; 2; 3] sample_heap).1
            (Model.fix_and_merge_messages (Llama2.init "llama") [0; 1; 2; 3] sample_heap).2).
Proof.
  refine (proj2 (llama2_tokens_by_role (Llama2.init "llama") [0; 1; 2; 3]
                   sample_heap _)).
  by apply (bool_decide_unpack _).
Defined.

(** The normalisation of Llama2 is not idempotent: run on its own
    result, over distinct messages, it returns the same list but puts
    every system and user content between the tokens a second time. *)
Theorem llama2_tokens_twice (self : instance) (msgs : list ref) (h : heap) :
  cls self = Llama2Model →
  add_llama_special_tokens self = true →
  NoDup msgs →
  (fix_and_merge_messages self (fix_and_merge_messages self msgs h).2
     (fix_and_merge_messages self msgs h).1).2
    = (fix_and_merge_messages self msgs h).2
  ∧ view (fix_and_merge_messages self (fix_and_merge_messages self msgs h).2
            (fix_and_merge_messages self msgs h).1).1
         (fix_and_merge_messages self msgs h).2
    = map llama_tokens
        (view (fix_and_merge_messages self msgs h).1
              (fix_and_merge_messages self msgs h).2).
Proof.
  intros Hc Ht Hnd.
  pose proof (dispatch_alternates self msgs h) as Halt.
  pose proof (dispatch_no_system self msgs h) as Hns.
  assert (Hout : NoDup (fix_and_merge_messages self msgs h).2).
  { rewrite dispatch_list.
    exact (sublist_NoDup _ _ Hnd (fix_loop_sublist self msgs h [])). }
  destruct (fix_and_merge_messages self msgs h) as [h1 out]. simpl in *.
  unfold fix_and_merge_messages, Llama2.fix_and_merge_messages,
    Model.fix_and_merge_messages.
  rewrite Hc, Ht, fix_loop_fixed_point by done. simpl. split; [done|].
  unfold view. rewrite map_map. apply map_ext_in.
  intros r Hr. apply list_elem_of_In in Hr.
  rewrite wrap_loop_lookup by done. by rewrite decide_True.
Qed.

Lemma llama2_tokens_twice_witness :
  view (fix_and_merge_messages (Llama2.init "llama")
          (fix_and_merge_messages (Llama2.init "llama") [0; 1; 2; 3] sample_heap).2
          (fix_and_merge_messages (Llama2.init "llama") [0; 1; 2; 3] sample_heap).1).1
       (fix_and_merge_messages (Llama2.init "llama") [0; 1; 2; 3] sample_heap).2
  = map llama_tokens
      (view (fix_and_merge_messages (Llama2.init "llama") [0; 1; 2; 3] sample_heap).1
            (fix_and_merge_messages (Llama2.init "llama") [0; 1; 2; 3] sample_heap).2).
Proof.
  refine (proj2 (llama2_tokens_twice (Llama2.init "llama") [0; 1; 2; 3]
                   sample_heap _ _ _)).
  - reflexivity.
  - reflexivity.
  - by apply (bool_decide_unpack _).
Defined.

(** [Llama2.__init__] hands no settings on, so an instance made by it
    formats with the defaults whatever the caller had in mind: 2048 for
    [max_gen_len], the drawn number for the temperature, and for the
    prompt the contents of the messages, one per line. *)
Theorem llama2_constructor_drops_settings
    (name : string) (msgs : list ref) (h : heap) (rnd : Q) :
  Llama2.bedrock_format (Llama2.init name) msgs h rnd
  = PDict [ ("max_gen_len"%string, PInt 2048);
            ("prompt"%string, PStr (join nl (map content (view h msgs))));
            ("temperature"%string, PFloat (uniform 0 1 rnd)) ].
Proof.
  unfold Llama2.bedrock_format, view. by rewrite map_map.
Qed.

(** ** The role table and the failure of [format_messages] *)

Lemma role_converter_lookup s c :
  CohereCommand.role_converter !! s = Some c → known_role s ∧ cohere_role c.
Proof.
  unfold CohereCommand.role_converter, known_role, cohere_role.
  destruct (decide (s = "user"%string)) as [->|Hu].
  { rewrite lookup_insert_eq. intros [= <-]. auto. }
  rewrite lookup_insert_ne by done.
  destruct (decide (s = "system"%string)) as [->|Hs].
  { rewrite lookup_insert_eq. intros [= <-]. auto. }
  rewrite lookup_insert_ne by done.
  destruct (decide (s = "assistant"%string)) as [->|Ha].
  { rewrite lookup_singleton_eq. intros [= <-]. auto. }
  by rewrite lookup_singleton_ne by done.
Qed.

Lemma role_converter_unknown s :
  ¬ known_role s → CohereCommand.role_converter !! s = None.
Proof.
  intros Hk. destruct (CohereCommand.role_converter !! s) as [c|] eqn:Hc; [|done].
  by apply role_converter_lookup in Hc as [? _].
Qed.

Lemma instruct_not_system h msg :
  role (h !!! msg) ≠ "system"%string → CohereCommand.instruct h msg = h.
Proof. intros Hr. unfold CohereCommand.instruct. by rewrite decide_False. Qed.

Lemma instruct_length h msg : length (CohereCommand.instruct h msg) = length h.
Proof.
  unfold CohereCommand.instruct. case_decide; [|done]. apply length_insert.
Qed.

Lemma instruct_loop_length msgs h :
  length (foldl CohereCommand.instruct h msgs) = length h.
Proof.
  revert h. induction msgs as [|m msgs IH]; intros h; [done|].
  cbn [foldl]. by rewrite IH, instruct_length.
Qed.

Lemma instruct_loop_other msgs h r :
  r ∉ msgs → foldl CohereCommand.instruct h msgs !!! r = h !!! r.
Proof.
  revert h. induction msgs as [|m msgs IH]; intros h Hr; [done|].
  apply not_elem_of_cons in Hr as (Hne & Hr). cbn [foldl].
  by rewrite IH, instruct_other.
Qed.

(** What a successful run of the loop has done. *)
Lemma format_loop_ok msgs h output h' out' :
  CohereCommand.format_loop msgs h output = (h', Ok out') →
  h' = foldl CohereCommand.instruct h msgs
  ∧ Forall (λ r, known_role (role (h !!! r))) msgs
  ∧ ∃ out, out' = output ++ out
           ∧ length out = length msgs
           ∧ Forall (λ e, cohere_role (entry_role e)) out.
Proof.
  revert h output. induction msgs as [|m msgs IH]; intros h output Hrun.
  - simpl in Hrun. injection Hrun as <- <-. split_and!; [done|done|].
    exists []. by rewrite app_nil_r.
  - cbn [CohereCommand.format_loop foldl] in *.
    destruct (CohereCommand.role_converter
                !! role (CohereCommand.instruct h m !!! m)) as [c|] eqn:Hc;
      [|done].
    apply IH in Hrun as (-> & Hk & out & -> & Hlen & Hroles).
    apply role_converter_lookup in Hc as [Hkm Hcr].
    rewrite instruct_role in Hkm. split_and!; [done| |].
    + constructor; [done|]. eapply Forall_impl; [exact Hk|].
      intros r Hr. simpl in Hr. by rewrite instruct_role in Hr.
    + eexists (_ :: out). rewrite <- app_assoc. split_and!; [done| |].
      * simpl. by rewrite Hlen.
      * by constructor.
Qed.

(** [format_messages] returns normally only when every role is in its
    table; it then has one entry for each message, and no entry has a
    role other than USER and CHATBOT. *)
Theorem format_messages_entries
    (msgs : list ref) (h : heap) (out : list chat_entry) :
  (CohereCommand.format_messages msgs h).2 = Ok out →
  Forall (λ r, known_role (role (h !!! r))) msgs
  ∧ length out = length msgs
  ∧ Forall (λ e, cohere_role (entry_role e)) out.
Proof.
  unfold CohereCommand.format_messages.
  destruct (CohereCommand.format_loop msgs h []) as [h' r] eqn:Hrun.
  simpl. intros ->.
  apply format_loop_ok in Hrun as (_ & Hk & out' & -> & Hlen & Hroles).
  done.
Qed.

Lemma format_messages_entries_witness :
  length (map (λ r, cohere_entry 1 (sample_heap !!! r)) [0; 1; 3])
  = length [0; 1; 3].
Proof.
  refine (proj1 (proj2 (format_messages_entries [0; 1; 3] sample_heap _ _))).
  reflexivity.
Defined.

Lemma format_loop_unknown pre r post h output :
  Forall (λ x, known_role (role (h !!! x))) pre →
  ¬ known_role (role (h !!! r)) →
  CohereCommand.format_loop (pre ++ r :: post) h output
  = (foldl CohereCommand.instruct h pre, Raise (KeyError (role (h !!! r)))).
Proof.
  revert h output. induction pre as [|m pre IH]; intros h output Hk Hr.
  - cbn [app CohereCommand.format_loop foldl].
    rewrite instruct_not_system by (intros Hs; apply Hr; right; by left).
    by rewrite role_converter_unknown.
  - apply Forall_cons in Hk as (Hm & Hk).
    cbn [app CohereCommand.format_loop foldl]. rewrite instruct_role.
    destruct (role_converter_known _ Hm) as [c Hc]. rewrite Hc.
    rewrite IH.
    + by rewrite instruct_role.
    + eapply Forall_impl; [exact Hk|]. intros x Hx. simpl.
      by rewrite instruct_role.
    + by rewrite instruct_role.
Qed.

(** At the first message whose role is not in the table,
    [format_messages] raises [KeyError] with that role, and so does
    [bedrock_format]; the entries made so far are lost, but what the
    earlier turns wrote to the messages stays, and no later message has
    been touched. *)
Theorem format_messages_unknown_role
    (self : instance) (pre post : list ref) (r : ref) (h : heap) (rnd : Q) :
  Forall (λ x, known_role (role (h !!! x))) pre →
  ¬ known_role (role (h !!! r)) →
  CohereCommand.format_messages (pre ++ r :: post) h
    = (foldl CohereCommand.instruct h pre, Raise (KeyError (role (h !!! r))))
  ∧ CohereCommand.bedrock_format self (pre ++ r :: post) h rnd
    = (foldl CohereCommand.instruct h pre, Raise (KeyError (role (h !!! r))))
  ∧ ∀ x, x ∉ pre → foldl CohereCommand.instruct h pre !!! x = h !!! x.
Proof.
  intros Hk Hr.
  assert (Hrun : CohereCommand.format_messages (pre ++ r :: post) h
                 = (foldl CohereCommand.instruct h pre,
                    Raise (KeyError (role (h !!! r)))))
    by by apply format_loop_unknown.
  split_and!; [done| |].
  - unfold CohereCommand.bedrock_format. by rewrite Hrun.
  - intros x Hx. by apply instruct_loop_other.
Qed.

Lemma format_messages_unknown_role_witness :
  CohereCommand.format_messages ([0] ++ 1 :: [2]) odd_heap
  = (foldl CohereCommand.instruct odd_heap [0], Raise (KeyError "tool")).
Proof.
  refine (proj1 (format_messages_unknown_role cohere_model [0] [2] 1
                   odd_heap 0 _ _)).
  - by apply (bool_decide_unpack _).
  - by apply (bool_decide_unpack _).
Defined.

(** ** What [format_messages] writes *)

Lemma cohere_written_zero m : cohere_written 0 m = m.
Proof. unfold cohere_written. case_decide; [|done]. by destruct m. Qed.

Lemma cohere_written_add j k m :
  cohere_written j (cohere_written k m) = cohere_written (j + k) m.
Proof.
  unfold cohere_written.
  destruct (decide (role m = "system"%string)) as [Hr|Hr]; simpl.
  - rewrite decide_True by done. unfold set_content. simpl. f_equal.
    induction j as [|j IH]; [done|]. simpl. by rewrite IH.
  - by rewrite decide_False by done.
Qed.

Lemma instruct_written h msg r :
  ∃ k, CohereCommand.instruct h msg !!! r = cohere_written k (h !!! r).
Proof.
  destruct (decide (r = msg)) as [->|Hne].
  - exists 1. apply instruct_self.
  - exists 0. by rewrite instruct_other, cohere_written_zero.
Qed.

Lemma instruct_loop_written msgs h r :
  ∃ k, foldl CohereCommand.instruct h msgs !!! r = cohere_written k (h !!! r).
Proof.
  revert h. induction msgs as [|m msgs IH]; intros h.
  - exists 0. by rewrite cohere_written_zero.
  - cbn [foldl]. destruct (IH (CohereCommand.instruct h m)) as [j Hj].
    destruct (instruct_written h m r) as [k Hk].
    exists (j + k). by rewrite Hj, Hk, cohere_written_add.
Qed.

(** The store a run leaves is the one of the turns before it stopped. *)
Lemma format_loop_store msgs h output :
  ∃ pre, pre `prefix_of` msgs
         ∧ (CohereCommand.format_loop msgs h output).1
           = foldl CohereCommand.instruct h pre.
Proof.
  revert h output. induction msgs as [|m msgs IH]; intros h output.
  - exists []. done.
  - cbn [CohereCommand.format_loop].
    destruct (CohereCommand.role_converter
                !! role (CohereCommand.instruct h m !!! m)) as [c|] eqn:Hc.
    + destruct (IH (CohereCommand.instruct h m)
                  (output ++ [mkEntry c
                     (content (CohereCommand.instruct h m !!! m))]))
        as (pre & Hpre & Hrun).
      exists (m :: pre). split; [by apply prefix_cons|]. by rewrite Hrun.
    + exists [m]. split; [|done]. by apply prefix_cons, prefix_nil.
Qed.

(** Whether it returns or raises, [format_messages] keeps the number of
    objects of the store, writes to no message outside its list, and
    changes a message of the list in one way only: the instructions
    prefix, some number of times, in front of the content of a system
    message. Roles, and messages that are not system messages, stay. *)
Theorem format_messages_writes_prefixes_only (msgs : list ref) (h : heap) :
  length (CohereCommand.format_messages msgs h).1 = length h
  ∧ (∀ r, ∃ k, (CohereCommand.format_messages msgs h).1 !!! r
               = cohere_written k (h !!! r))
  ∧ (∀ r, r ∉ msgs → (CohereCommand.format_messages msgs h).1 !!! r = h !!! r).
Proof.
  unfold CohereCommand.format_messages.
  destruct (format_loop_store msgs h []) as (pre & Hpre & ->).
  split_and!.
  - apply instruct_loop_length.
  - intros r. apply instruct_loop_written.
  - intros r Hr. apply instruct_loop_other.
    intros Hin. apply Hr. destruct Hpre as [k ->]. set_solver.
Qed.

Lemma format_messages_writes_prefixes_only_witness :
  (CohereCommand.format_messages [0; 1; 3] sample_heap).1 !!! 2
  = sample_heap !!! 2.
Proof.
  refine (proj2 (proj2 (format_messages_writes_prefixes_only [0; 1; 3]
                          sample_heap)) 2 _).
  by apply (bool_decide_unpack _).
Defined.

(** [CohereCommandR.bedrock_format] does to the messages what
    [CohereCommand.bedrock_format] does and fails where it fails; its
    body has under [message] the text the other has under [prompt], the
    same stop sequences and temperature, and 20000 for [max_tokens]
    whatever the settings say. *)
Theorem cohere_command_r_against_cohere_command
    (self : instance) (msgs : list ref) (h : heap) (rnd : Q) :
  (CohereCommandR.bedrock_format self msgs h rnd).1
    = (CohereCommand.bedrock_format self msgs h rnd).1
  ∧ match (CohereCommand.bedrock_format self msgs h rnd).2,
          (CohereCommandR.bedrock_format self msgs h rnd).2 with
    | Ok body, Ok body_r =>
        body_field "message" body_r = body_field "prompt" body
        ∧ body_field "stop_sequences" body_r = body_field "stop_sequences" body
        ∧ body_field "temperature" body_r = body_field "temperature" body
        ∧ body_field "max_tokens" body_r = Some (PInt 20000)
        ∧ body_field "max_tokens" body = None
    | Raise e, Raise e_r => e = e_r
    | _, _ => False
    end.
Proof.
  unfold CohereCommandR.bedrock_format, CohereCommand.bedrock_format.
  destruct (CohereCommand.format_messages msgs h) as [h1 [out|e]]; done.
Qed.

(** ** Settings *)

(** A body depends on the instance through its class and the five keys
    the formatters read, and on nothing else: other keys of the settings,
    the name and the two flags make no difference. *)
Theorem bedrock_format_reads_five_keys
    (self self' : instance) (msgs : list ref) (h : heap) (rnd : Q) :
  cls self = cls self' →
  (∀ k, k ∈ recognised_keys →
        model_settings self !! k = model_settings self' !! k) →
  bedrock_format self msgs h rnd = bedrock_format self' msgs h rnd.
Proof.
  intros Hc Hk.
  assert (Hg : ∀ k, k ∈ recognised_keys →
                 get (model_settings self) k = get (model_settings self') k).
  { intros k Hin. unfold get. by rewrite Hk. }
  pose proof (Hg "max_gen_len"%string ltac:(by apply (bool_decide_unpack _))) as H1.
  pose proof (Hg "max_tokens"%string ltac:(by apply (bool_decide_unpack _))) as H2.
  pose proof (Hg "temperature"%string ltac:(by apply (bool_decide_unpack _))) as H3.
  pose proof (Hg "stop_sequences"%string ltac:(by apply (bool_decide_unpack _))) as H4.
  pose proof (Hg "anthropic_version"%string ltac:(by apply (bool_decide_unpack _))) as H5.
  unfold bedrock_format, Model.bedrock_format, Llama2.bedrock_format,
    CohereCommand.bedrock_format, CohereCommandR.bedrock_format,
    Claude.bedrock_format.
  rewrite Hc, H1, H2, H3, H4, H5. done.
Qed.

Lemma bedrock_format_reads_five_keys_witness :
  bedrock_format claude_top_p [0; 1] sample_heap 0
  = bedrock_format claude_model [0; 1] sample_heap 0.
Proof.
  apply (bedrock_format_reads_five_keys claude_top_p claude_model [0; 1]
           sample_heap 0); [reflexivity|].
  intros k Hk.
  repeat (apply elem_of_cons in Hk as [->|Hk]; [reflexivity|]).
  by apply elem_of_nil in Hk.
Defined.

(** A configured temperature that counts as true (any number but zero)
    is the temperature of the body, in every class that formats. *)
Theorem configured_temperature_is_kept
    (self : instance) (msgs msgs' : list ref) (h h' : heap) (rnd : Q)
    (body v : pyval) :
  bedrock_format self msgs h rnd = (h', msgs', Ok body) →
  model_settings self !! "temperature"%string = Some v →
  truthy v = true →
  body_field "temperature" body = Some v.
Proof. apply bedrock_format_temperature_configured. Qed.

Lemma configured_temperature_is_kept_witness :
  body_field "temperature"
    (body_of (bedrock_format claude_warm [0; 1] sample_heap 0).2)
  = Some (PFloat (7 # 10)).
Proof.
  apply (configured_temperature_is_kept claude_warm [0; 1] [1] sample_heap sample_heap
           0 (body_of (bedrock_format claude_warm [0; 1] sample_heap 0).2)
           (PFloat (7 # 10))); reflexivity.
Defined.

(** Without the key the temperature of the body is the number drawn, at
    least 0 and below 1 when [random()] is. *)
Theorem absent_temperature_is_drawn
    (self : instance) (msgs msgs' : list ref) (h h' : heap) (rnd : Q)
    (body : pyval) :
  bedrock_format self msgs h rnd = (h', msgs', Ok body) →
  model_settings self !! "temperature"%string = None →
  unit_draw rnd →
  ∃ q, body_field "temperature" body = Some (PFloat q)
       ∧ (0 <= q)%Q ∧ (q < 1)%Q.
Proof. apply bedrock_format_temperature_default. Qed.

Lemma absent_temperature_is_drawn_witness :
  ∃ q, body_field "temperature"
         (body_of (bedrock_format claude_model [0; 1] sample_heap (1 # 2)).2)
       = Some (PFloat q)
       ∧ (0 <= q)%Q ∧ (q < 1)%Q.
Proof.
  apply (absent_temperature_is_drawn claude_model [0; 1] [1] sample_heap sample_heap
           (1 # 2)
           (body_of (bedrock_format claude_model [0; 1] sample_heap (1 # 2)).2)).
  - reflexivity.
  - reflexivity.
  - split; [discriminate|reflexivity].
Defined.

(** A key that is missing, or set to a value that counts as false (None,
    0, an empty list, an empty string), gives the default of the class:
    2048 for [max_gen_len] of Llama2, ["User:"] for [stop_sequences] of
    the two Cohere classes, 8000 for [max_tokens] and
    "bedrock-2023-05-31" for [anthropic_version] of Claude. *)
Theorem bedrock_format_defaults
    (self : instance) (msgs msgs' : list ref) (h h' : heap) (rnd : Q)
    (body : pyval) (k : string) (d : pyval) :
  bedrock_format self msgs h rnd = (h', msgs', Ok body) →
  class_default (cls self) k = Some d →
  truthy (get (model_settings self) k) = false →
  body_field k body = Some d.
Proof.
  unfold bedrock_format, class_default, CohereCommand.bedrock_format,
    CohereCommandR.bedrock_format, Claude.bedrock_format,
    Llama2.bedrock_format.
  intros Hb Hd Ht. destruct (cls self).
  - done.
  - case_decide; [subst k|done]. injection Hd as <-. injection Hb as _ _ <-.
    unfold py_or. by rewrite Ht.
  - destruct (CohereCommand.format_messages msgs h) as [h1 [out|e]]; [|done].
    case_decide; [subst k|done]. injection Hd as <-. injection Hb as _ _ <-.
    unfold py_or. by rewrite Ht.
  - destruct (CohereCommand.format_messages msgs h) as [h1 [out|e]]; [|done].
    case_decide; [subst k|done]. injection Hd as <-. injection Hb as _ _ <-.
    unfold py_or. by rewrite Ht.
  - destruct msgs as [|m rest]; [done|]. injection Hb as _ _ <-.
    case_decide; [subst k|].
    + injection Hd as <-. unfold py_or. by rewrite Ht.
    + case_decide; [subst k|done]. injection Hd as <-.
      unfold py_or. by rewrite Ht.
Qed.

Lemma bedrock_format_defaults_witness :
  body_field "max_tokens"
    (body_of (bedrock_format claude_zero [0; 1] sample_heap 0).2)
  = Some (PInt 8000).
Proof.
  apply (bedrock_format_defaults claude_zero [0; 1] [1] sample_heap sample_heap
           0 (body_of (bedrock_format claude_zero [0; 1] sample_heap 0).2)
           "max_tokens" (PInt 8000)); reflexivity.
Defined.

(** ** The two scaffold texts *)

(** For a dictionary the system text is the instructions for JSON with
    the serialised schema between the fences, with no white space at
    either end, and the hint is the opening fence of a JSON block. *)
Theorem scaffold_of_schema (dumped : string) :
  Model.scaffold (ParamsDict dumped)
  = (schema_instructions dumped, "```json"%string).
Proof. apply scaffold_dict. Qed.

(** For a type name the system text names the type twice and the hint is
    empty; but the name "json" is taken for the schema mode, with the
    word json where the schema would be. *)
Theorem scaffold_of_type_name (s : string) :
  Model.scaffold (ParamsStr s)
  = if decide (s = "json"%string)
    then (schema_instructions "json", "```json"%string)
    else (plain_instructions s, ""%string).
Proof.
  case_decide as Hs.
  - subst s. exact (scaffold_dict "json").
  - by apply scaffold_str.
Qed.

(** ** [build_prompt] and the store *)

Lemma build_prompt_unfold self messages p h :
  build_prompt self messages p h
  = ((fix_and_merge_messages self (scaffold_list h messages)
        (scaffold_store h p)).1,
     scaffold_list h messages,
     (fix_and_merge_messages self (scaffold_list h messages)
        (scaffold_store h p)).2).
Proof.
  unfold build_prompt, Model.build_prompt, alloc, scaffold_store, scaffold_list.
  destruct (Model.scaffold p) as [c hint]. simpl.
  rewrite length_app. simpl. rewrite Nat.add_1_r.
  by destruct (fix_and_merge_messages self _ _).
Qed.

Lemma scaffold_store_length h p : length (scaffold_store h p) = length h + 2.
Proof. unfold scaffold_store. rewrite !length_app. simpl. lia. Qed.

Lemma scaffold_store_old h p r :
  r < length h → scaffold_store h p !!! r = h !!! r.
Proof.
  intros Hr. unfold scaffold_store.
  rewrite lookup_total_app_l by (rewrite length_app; simpl; lia).
  by rewrite lookup_total_app_l by done.
Qed.

Lemma scaffold_store_system h p :
  scaffold_store h p !!! length h = mkMessage "system" (Model.scaffold p).1.
Proof.
  unfold scaffold_store. rewrite <- app_assoc. cbn [app].
  by rewrite list_lookup_total_middle.
Qed.

Lemma scaffold_store_assistant h p :
  scaffold_store h p !!! S (length h)
  = mkMessage "assistant" (Model.scaffold p).2.
Proof.
  unfold scaffold_store. rewrite list_lookup_total_middle; [done|].
  rewrite length_app. simpl. lia.
Qed.

Lemma valid_last h pre m : valid h (pre ++ [m]) → m < length h.
Proof.
  unfold valid. rewrite Forall_app, Forall_singleton. by intros [_ ?].
Qed.

Lemma valid_not_new h messages r :
  valid h messages → length h ≤ r → r ∉ messages.
Proof.
  intros Hv Hr Hin. unfold valid in Hv. rewrite Forall_forall in Hv.
  apply Hv in Hin. lia.
Qed.



(** ** Claude after [build_prompt] *)

(** On the list [build_prompt] returns, [Claude.bedrock_format] never
    meets an empty list, and what it moves to the field [system] is the
    injected message: the rendered instructions, followed by whatever
    system messages of the caller were merged into it. *)
Theorem claude_system_after_build_prompt
    (self : instance) (messages : list ref) (p : params) (h : heap) (rnd : Q) :
  cls self = ClaudeModel →
  ∃ body s,
    (Claude.bedrock_format self (build_prompt self messages p h).2
       (build_prompt self messages p h).1.1 rnd).2 = Ok body
    ∧ body_field "system" body = Some (PStr ((Model.scaffold p).1 +:+ s)).
Proof.
  intros Hc. rewrite build_prompt_unfold. simpl.
  assert (Hd : fix_and_merge_messages self = Model.fix_and_merge_messages self)
    by (unfold fix_and_merge_messages; by rewrite Hc).
  rewrite Hd.
  destruct (fix_and_merge_messages_framed self (length h) (S (length h))
              messages (scaffold_store h p)) as (Hhead & _ & _).
  { rewrite scaffold_store_length. lia. }
  { by rewrite scaffold_store_system. }
  { by rewrite scaffold_store_assistant. }
  destruct (fix_loop_content_extends self (scaffold_list h messages)
              (scaffold_store h p) [] (length h)) as [s Hs].
  fold (scaffold_list h messages) in Hhead.
  unfold Model.fix_and_merge_messages in *.
  destruct (foldl (Model.fix_step self) (scaffold_store h p, [])
              (scaffold_list h messages)) as [h3 out].
  simpl in *. destruct out as [|f rest]; [done|]. injection Hhead as ->.
  eexists _, s. split; [reflexivity|].
  simpl. by rewrite Hs, scaffold_store_system.
Qed.

Lemma claude_system_after_build_prompt_witness :
  ∃ body s,
    (Claude.bedrock_format claude_model
       (build_prompt claude_model [0; 1] (ParamsStr "text") sample_heap).2
       (build_prompt claude_model [0; 1] (ParamsStr "text") sample_heap).1.1
       0).2 = Ok body
    ∧ body_field "system" body
      = Some (PStr ((Model.scaffold (ParamsStr "text")).1 +:+ s)).
Proof.
  apply (claude_system_after_build_prompt claude_model [0; 1]
           (ParamsStr "text") sample_heap 0).
  reflexivity.
Defined.

(** ** Where the assistant hint goes *)

Lemma role_moved_assistant self b :
  role_moved self "assistant" b → b = "assistant"%string.
Proof. intros [->|(_ & Hb & _)]; done. Qed.

Lemma role_moved_not_assistant self a b :
  role_moved self a b → a ≠ "assistant"%string → b ≠ "assistant"%string.
Proof. intros [->|(_ & _ & ->)] Ha; done. Qed.

Lemma role_moved_trans self a b c :
  role_moved self a b → role_moved self b c → role_moved self a c.
Proof.
  intros [->|(Hs & Ha & Hb)] [->|(Hs' & Hb' & Hc)].
  - by left.
  - right. done.
  - right. done.
  - subst. done.
Qed.

Lemma llama_tokens_other m :
  role m ≠ "system"%string → role m ≠ "user"%string → llama_tokens m = m.
Proof.
  intros Hs Hu. unfold llama_tokens. by rewrite !decide_False by done.
Qed.

Lemma wrap_loop_keeps l h r :
  role (h !!! r) ≠ "system"%string → role (h !!! r) ≠ "user"%string →
  foldl Llama2.wrap h l !!! r = h !!! r.
Proof.
  revert h. induction l as [|m l IH]; intros h Hs Hu; [done|].
  cbn [foldl].
  assert (Hw : Llama2.wrap h m !!! r = h !!! r).
  { destruct (decide (r = m)) as [->|Hne].
    - rewrite wrap_self. by apply llama_tokens_other.
    - by apply wrap_other. }
  rewrite IH; by rewrite Hw.
Qed.

(** A message that is neither a system nor a user message comes out of
    the normalisation of any class as it comes out of the pass of
    [Model]. *)
Lemma dispatch_keeps self msgs h r :
  role ((Model.fix_and_merge_messages self msgs h).1 !!! r) ≠ "system"%string →
  role ((Model.fix_and_merge_messages self msgs h).1 !!! r) ≠ "user"%string →
  (fix_and_merge_messages self msgs h).1 !!! r
  = (Model.fix_and_merge_messages self msgs h).1 !!! r.
Proof.
  unfold fix_and_merge_messages, Llama2.fix_and_merge_messages.
  destruct (cls self); try done.
  destruct (Model.fix_and_merge_messages self msgs h) as [h1 out].
  destruct (add_llama_special_tokens self); [|done].
  simpl. intros Hs Hu. by apply wrap_loop_keeps.
Qed.

(** The role the last accepted message has after a pass over a list that
    ends with [x]: the role of [x], or "user" for its "system". *)
Lemma fix_loop_last_role self init x h :
  ∃ l, last (foldl (Model.fix_step self) (h, []) (init ++ [x])).2 = Some l
       ∧ role_moved self (role (h !!! x))
           (role ((foldl (Model.fix_step self) (h, []) (init ++ [x])).1 !!! l)).
Proof.
  rewrite foldl_snoc.
  pose proof (fix_loop_role_moved self init h [] x) as Hmoved.
  destruct (foldl (Model.fix_step self) (h, []) init) as [hp fp].
  destruct (fix_step_last self hp fp x) as (l & Hl & Hrl).
  exists l. split; [done|]. rewrite Hrl.
  eapply role_moved_trans; [exact Hmoved|]. apply demote_role_moved.
Qed.

(** The pass over a list that ends with a new assistant message [asst],
    when the message before it is an assistant message too: the new
    message is merged into the last accepted one and is not returned. *)
Lemma hint_merged self init x asst h :
  asst ∉ init ++ [x] →
  role (h !!! x) = "assistant"%string →
  role (h !!! asst) = "assistant"%string →
  ∃ l c0,
    last (Model.fix_and_merge_messages self ((init ++ [x]) ++ [asst]) h).2
      = Some l
    ∧ (asst ∉ (Model.fix_and_merge_messages self ((init ++ [x]) ++ [asst]) h).2)
    ∧ (Model.fix_and_merge_messages self ((init ++ [x]) ++ [asst]) h).1 !!! l
      = mkMessage "assistant" (c0 +:+ nl +:+ nl +:+ content (h !!! asst)).
Proof.
  intros Hnew Hx Ha. unfold Model.fix_and_merge_messages. rewrite foldl_snoc.
  destruct (fix_loop_last_role self init x h) as (l & Hl & Hmoved).
  pose proof (fix_loop_frame self (init ++ [x]) h [] asst
                ltac:(apply not_elem_of_nil) Hnew) as Hframe.
  pose proof (fix_loop_sublist self (init ++ [x]) h []) as Hsub.
  destruct (foldl (Model.fix_step self) (h, []) (init ++ [x])) as [hm fm].
  simpl in *. rewrite Hx in Hmoved. apply role_moved_assistant in Hmoved.
  assert (Hin : l < length hm) by (apply role_in_store; by rewrite Hmoved).
  assert (Hd : Model.demote self hm asst = hm).
  { apply demote_not_system. by rewrite Hframe, Ha. }
  unfold Model.fix_step. rewrite Hd, Hl.
  rewrite decide_True by by rewrite Hframe, Ha.
  simpl. exists l, (content (hm !!! l)). split_and!; [done| |].
  - intros Hin'. apply Hnew. by eapply elem_of_sublist.
  - rewrite merge_self by done. unfold spec_concat, set_content.
    by rewrite Hmoved, Hframe.
Qed.

(** The same pass when the message before the new one is not an
    assistant message: the new message is accepted as it is. *)
Lemma hint_appended self init x asst h :
  asst ∉ init ++ [x] →
  role (h !!! x) ≠ "assistant"%string →
  role (h !!! asst) = "assistant"%string →
  last (Model.fix_and_merge_messages self ((init ++ [x]) ++ [asst]) h).2
    = Some asst
  ∧ (Model.fix_and_merge_messages self ((init ++ [x]) ++ [asst]) h).1 !!! asst
    = h !!! asst.
Proof.
  intros Hnew Hx Ha. unfold Model.fix_and_merge_messages. rewrite foldl_snoc.
  destruct (fix_loop_last_role self init x h) as (l & Hl & Hmoved).
  pose proof (fix_loop_frame self (init ++ [x]) h [] asst
                ltac:(apply not_elem_of_nil) Hnew) as Hframe.
  destruct (foldl (Model.fix_step self) (h, []) (init ++ [x])) as [hm fm].
  simpl in *. apply role_moved_not_assistant in Hmoved; [|done].
  assert (Hd : Model.demote self hm asst = hm).
  { apply demote_not_system. by rewrite Hframe, Ha. }
  unfold Model.fix_step. rewrite Hd, Hl.
  rewrite decide_False by by rewrite Hframe, Ha.
  simpl. split; [apply last_snoc|done].
Qed.

(** When the caller's list ends with an assistant message, the hint does
    not become a message of its own: the new assistant message is left
    out of the returned list, whose last message, an assistant message,
    now ends with an empty line and the hint. This holds in every
    class. *)
Theorem build_prompt_merges_hint
    (self : instance) (pre : list ref) (m : ref) (p : params) (h : heap) :
  valid h (pre ++ [m]) →
  role (h !!! m) = "assistant"%string →
  ∃ l c0,
    last (build_prompt self (pre ++ [m]) p h).2 = Some l
    ∧ (S (length h) ∉ (build_prompt self (pre ++ [m]) p h).2)
    ∧ (build_prompt self (pre ++ [m]) p h).1.1 !!! l
      = mkMessage "assistant" (c0 +:+ nl +:+ nl +:+ (Model.scaffold p).2).
Proof.
  intros Hv Hm. rewrite build_prompt_unfold. simpl.
  assert (Hvm : m < length h) by by eapply valid_last.
  unfold scaffold_list. rewrite dispatch_list.
  rewrite (app_comm_cons pre [m] (length h)).
  destruct (hint_merged self (length h :: pre) m (S (length h))
              (scaffold_store h p)) as (l & c0 & Hl & Hnin & Hcont).
  { rewrite <- app_comm_cons. intros Hin.
    apply elem_of_cons in Hin as [?|Hin]; [lia|].
    by eapply valid_not_new; [exact Hv| |exact Hin]; lia. }
  { by rewrite scaffold_store_old. }
  { by rewrite scaffold_store_assistant. }
  exists l, c0. split_and!; [done|done|].
  rewrite dispatch_keeps; rewrite Hcont; [|done|done].
  by rewrite scaffold_store_assistant.
Qed.

Lemma build_prompt_merges_hint_witness :
  ∃ l c0,
    last (build_prompt base_model ([0; 1] ++ [3]) (ParamsDict "{}") sample_heap).2
      = Some l
    ∧ (S (length sample_heap)
       ∉ (build_prompt base_model ([0; 1] ++ [3]) (ParamsDict "{}") sample_heap).2)
    ∧ (build_prompt base_model ([0; 1] ++ [3]) (ParamsDict "{}") sample_heap).1.1
        !!! l
      = mkMessage "assistant"
          (c0 +:+ nl +:+ nl +:+ (Model.scaffold (ParamsDict "{}")).2).
Proof.
  apply (build_prompt_merges_hint base_model [0; 1] 3 (ParamsDict "{}")
           sample_heap).
  - by apply (bool_decide_unpack _).
  - reflexivity.
Defined.

(** When the caller's list is empty or ends with a message that is not
    an assistant message, the returned list ends with the new assistant
    message, whose content is the hint and nothing else, also when the
    hint is empty. This holds in every class. *)
Theorem build_prompt_appends_hint
    (self : instance) (messages : list ref) (p : params) (h : heap) :
  valid h messages →
  (∀ m, last messages = Some m → role (h !!! m) ≠ "assistant"%string) →
  last (build_prompt self messages p h).2 = Some (S (length h))
  ∧ (build_prompt self messages p h).1.1 !!! S (length h)
    = mkMessage "assistant" (Model.scaffold p).2.
Proof.
  intros Hv Hlast. rewrite build_prompt_unfold. simpl.
  unfold scaffold_list. rewrite dispatch_list.
  assert (Hx : ∃ init x, length h :: messages = init ++ [x]
                         ∧ role (scaffold_store h p !!! x) ≠ "assistant"%string).
  { destruct (last messages) as [x|] eqn:Hlx.
    - apply last_Some in Hlx as [init ->].
      exists (length h :: init), x. split; [done|].
      rewrite scaffold_store_old; [by apply Hlast|]. by eapply valid_last.
    - apply last_None in Hlx as ->. exists [], (length h). split; [done|].
      by rewrite scaffold_store_system. }
  destruct Hx as (init & x & Heq & Hrx). rewrite Heq.
  destruct (hint_appended self init x (S (length h)) (scaffold_store h p))
    as [Hl Hcont]; [|done|by rewrite scaffold_store_assistant|].
  { rewrite <- Heq. intros Hin.
    apply elem_of_cons in Hin as [?|Hin]; [lia|].
    by eapply valid_not_new; [exact Hv| |exact Hin]; lia. }
  split; [done|].
  rewrite dispatch_keeps; rewrite Hcont, scaffold_store_assistant; done.
Qed.

Lemma build_prompt_appends_hint_witness :
  last (build_prompt base_model [0; 1] (ParamsStr "text") sample_heap).2
    = Some (S (length sample_heap))
  ∧ (build_prompt base_model [0; 1] (ParamsStr "text") sample_heap).1.1
      !!! S (length sample_heap)
    = mkMessage "assistant" (Model.scaffold (ParamsStr "text")).2.
Proof.
  apply (build_prompt_appends_hint base_model [0; 1] (ParamsStr "text")
           sample_heap).
  - by apply (bool_decide_unpack _).
  - intros m [= <-]. done.
Defined.

(** ** Cohere after [build_prompt] *)




(** ** Calling [build_prompt] again on the same list *)

(** [build_prompt] leaves its two messages in the caller's list. A
    second call on that list injects a new system message in front of
    the one of the first call and merges that one into it: with the
    system role supported, the first message of the second result then
    carries the instructions twice. *)
Theorem build_prompt_twice
    (self : instance) (messages : list ref) (p : params) (h : heap) :
  cls self ≠ Llama2Model →
  system_role_supported self = true →
  ∃ f s,
    head (build_prompt self (build_prompt self messages p h).1.2 p
            (build_prompt self messages p h).1.1).2 = Some f
    ∧ content ((build_prompt self (build_prompt self messages p h).1.2 p
                  (build_prompt self messages p h).1.1).1.1 !!! f)
      = (Model.scaffold p).1 +:+ nl +:+ nl +:+ (Model.scaffold p).1 +:+ s.
Proof.
  intros Hc Hs.
  assert (Hd : fix_and_merge_messages self = Model.fix_and_merge_messages self).
  { unfold fix_and_merge_messages. by destruct (cls self). }
  rewrite (build_prompt_unfold self messages p h). simpl.
  rewrite build_prompt_unfold. simpl. rewrite !Hd.
  destruct (fix_and_merge_messages_framed self (length h) (S (length h))
              messages (scaffold_store h p)) as (_ & Hrole1 & _).
  { rewrite scaffold_store_length. lia. }
  { by rewrite scaffold_store_system. }
  { by rewrite scaffold_store_assistant. }
  rewrite Hs in Hrole1. fold (scaffold_list h messages) in Hrole1.
  destruct (fix_loop_content_extends self (scaffold_list h messages)
              (scaffold_store h p) [] (length h)) as [s1 Hs1].
  rewrite scaffold_store_system in Hs1. cbn [content] in Hs1.
  pose proof (fix_loop_length self (scaffold_list h messages)
                (scaffold_store h p) []) as Hlen.
  rewrite scaffold_store_length in Hlen.
  unfold Model.fix_and_merge_messages in *.
  destruct (foldl (Model.fix_step self) (scaffold_store h p, [])
              (scaffold_list h messages)) as [h1 out1].
  simpl in *.
  set (h2 := scaffold_store h1 p).
  assert (Hsys2 : h2 !!! length h1 = mkMessage "system" (Model.scaffold p).1)
    by apply scaffold_store_system.
  assert (Hsys1 : h2 !!! length h = h1 !!! length h)
    by (apply scaffold_store_old; lia).
  rewrite !demote_supported by done.
  rewrite decide_True by by rewrite Hsys2, Hsys1, Hrole1.
  destruct (fix_loop_content_extends self
              ((messages ++ [S (length h)]) ++ [S (length h1)])
              (Model.merge h2 (length h1) (length h)) [length h1] (length h1))
    as [s2 Hs2].
  exists (length h1), (s1 +:+ s2). split.
  - by apply fix_loop_head.
  - rewrite Hs2. rewrite merge_self.
    + unfold spec_concat. cbn [content set_content].
      rewrite Hsys2, Hsys1, Hs1. cbn [content].
      by rewrite !append_assoc.
    + unfold h2. rewrite scaffold_store_length. lia.
Qed.

Lemma build_prompt_twice_witness :
  ∃ f s,
    head (build_prompt base_model
            (build_prompt base_model [1] (ParamsStr "text") sample_heap).1.2
            (ParamsStr "text")
            (build_prompt base_model [1] (ParamsStr "text") sample_heap).1.1).2
      = Some f
    ∧ content ((build_prompt base_model
                  (build_prompt base_model [1] (ParamsStr "text") sample_heap).1.2
                  (ParamsStr "text")
                  (build_prompt base_model [1] (ParamsStr "text") sample_heap).1.1).1.1
                 !!! f)
      = (Model.scaffold (ParamsStr "text")).1 +:+ nl +:+ nl
        +:+ (Model.scaffold (ParamsStr "text")).1 +:+ s.
Proof.
  apply (build_prompt_twice base_model [1] (ParamsStr "text") sample_heap).
  - discriminate.
  - reflexivity.
Defined.

(** ** Alternation in every class *)

(** The list the normalisation of any class returns, the one of Llama2
    with its tokens included, has no two neighbours of one role. *)
Theorem normalisation_alternates_in_every_class
    (self : instance) (msgs : list ref) (h : heap) (i : nat) (a b : ref) :
  (fix_and_merge_messages self msgs h).2 !! i = Some a →
  (fix_and_merge_messages self msgs h).2 !! S i = Some b →
  role ((fix_and_merge_messages self msgs h).1 !!! a)
  ≠ role ((fix_and_merge_messages self msgs h).1 !!! b).
Proof. apply dispatch_alternates. Qed.

Lemma normalisation_alternates_in_every_class_witness :
  role ((fix_and_merge_messages (Llama2.init "llama") [0; 1; 2; 3] sample_heap).1
          !!! 0)
  ≠ role ((fix_and_merge_messages (Llama2.init "llama") [0; 1; 2; 3] sample_heap).1
            !!! 1).
Proof.
  apply (normalisation_alternates_in_every_class (Llama2.init "llama")
           [0; 1; 2; 3] sample_heap 0 0 1); reflexivity.
Defined.
